(** * Lando: configuration resolution and update check

    A shallow embedding of [lib/config.js] and [lib/updates.js].

    JavaScript values are modelled as finite trees ([value]); numbers are
    the integers (time stamps are integral milliseconds), strings are ASCII.
    [_.mergeWith] writes into its first argument: what it computes is stated
    on values, what it writes on a heap of objects with references
    ([Heap]). *)

From Stdlib Require Import ZArith Lia Bool Ascii String List DecimalString.
From stdpp Require Import base option list gmap strings.

Local Open Scope string_scope.
Local Open Scope Z_scope.

(** ** JavaScript values *)

Unset Elimination Schemes.
Inductive value : Type :=
  | VUndef
  | VNull
  | VBool (b : bool)
  | VNum (n : Z)
  | VStr (s : string)
  | VArr (xs : list value)
  | VObj (fs : list (string * value)).
Set Elimination Schemes.

(** The own enumerable properties of an object, in the order in which they
    were added.  (The engine lists integer-like keys first; the order of the
    keys of a merged object is not stated anywhere below.) *)
Abbreviation fields := (list (string * value)).

(** An induction principle that reaches inside arrays and objects. *)
Section value_induction.
Variable P : value -> Prop.
Hypothesis Hundef : P VUndef.
Hypothesis Hnull : P VNull.
Hypothesis Hbool : forall b, P (VBool b).
Hypothesis Hnum : forall n, P (VNum n).
Hypothesis Hstr : forall s, P (VStr s).
Hypothesis Harr : forall xs, Forall P xs -> P (VArr xs).
Hypothesis Hobj : forall fs, Forall (fun kv => P (snd kv)) fs -> P (VObj fs).

Fixpoint value_ind' (v : value) : P v :=
  match v with
  | VUndef => Hundef
  | VNull => Hnull
  | VBool b => Hbool b
  | VNum n => Hnum n
  | VStr s => Hstr s
  | VArr xs =>
      Harr xs ((fix go (l : list value) : Forall P l :=
                  match l with
                  | [] => List.Forall_nil _
                  | x :: r => List.Forall_cons _ x r (value_ind' x) (go r)
                  end) xs)
  | VObj fs =>
      Hobj fs ((fix go (l : fields) : Forall (fun kv => P (snd kv)) l :=
                  match l with
                  | [] => List.Forall_nil _
                  | kv :: r =>
                      List.Forall_cons _ kv r (value_ind' (snd kv)) (go r)
                  end) fs)
  end.
End value_induction.

Definition isArray (v : value) : bool :=
  match v with VArr _ => true | _ => false end.

(** [_.isObject]: arrays and objects, not [null]. *)
Definition isObject (v : value) : bool :=
  match v with VArr _ | VObj _ => true | _ => false end.

(** ** Property access *)

Section props.
Context {A : Type}.

(** [key in object] *)
Fixpoint has (o : list (string * A)) (k : string) : bool :=
  match o with
  | [] => false
  | (k', _) :: r => if String.eqb k k' then true else has r k
  end.

Fixpoint lookup_prop (o : list (string * A)) (k : string) : option A :=
  match o with
  | [] => None
  | (k', v) :: r => if String.eqb k k' then Some v else lookup_prop r k
  end.

(** [object[key] = v]: an existing key keeps its place, a new one goes last. *)
Fixpoint set (o : list (string * A)) (k : string) (v : A) : list (string * A) :=
  match o with
  | [] => [(k, v)]
  | (k', v') :: r =>
      if String.eqb k k' then (k', v) :: r else (k', v') :: set r k v
  end.
End props.

(** [object[key]]: [undefined] for a missing key. *)
Definition get (o : fields) (k : string) : value :=
  match lookup_prop o k with Some v => v | None => VUndef end.

(** ** [_.uniq] and [Array.prototype.concat] *)

(** SameValueZero.  Primitives compare by value.  Arrays and objects compare
    by reference; in a tree no two positions hold the same reference. *)
Definition sameValueZero (a b : value) : bool :=
  match a, b with
  | VUndef, VUndef => true
  | VNull, VNull => true
  | VBool x, VBool y => Bool.eqb x y
  | VNum x, VNum y => Z.eqb x y
  | VStr x, VStr y => String.eqb x y
  | _, _ => false
  end.

Definition includesWith (seen : list value) (v : value) : bool :=
  existsb (sameValueZero v) seen.

(** [baseUniq]: walk the array, keep a value unless it was seen before. *)
Fixpoint baseUniq (seen : list value) (xs : list value) : list value :=
  match xs with
  | [] => []
  | x :: r =>
      if includesWith seen x then baseUniq seen r
      else x :: baseUniq (x :: seen) r
  end.

Definition uniq (xs : list value) : list value := baseUniq [] xs.

(** [s.concat(f)]: an array argument is spread, anything else is appended. *)
Definition concat (s : list value) (f : value) : list value :=
  match f with
  | VArr ys => s ++ ys
  | _ => s ++ [f]
  end.

(** ** [_.mergeWith] with the customizer of [merge] *)

(** The customizer: [if (_.isArray(s)) return _.uniq(s.concat(f))];
    [None] stands for the implicit [undefined]. *)
Definition customizer (s f : value) : option value :=
  match s with
  | VArr xs => Some (VArr (uniq (concat xs f)))
  | _ => None
  end.

(** [assignMergeValue]: [undefined] is only written to a key that is absent. *)
Definition assignMergeValue (o : fields) (k : string) (v : value) : fields :=
  match v with
  | VUndef => if has o k then o else set o k VUndef
  | _ => set o k v
  end.

(** The key of an array index. *)
Definition indexKey (i : nat) : string :=
  NilEmpty.string_of_uint (Nat.to_uint i).

Definition MAX_SAFE_INTEGER : Z := 9007199254740991.

(** [isArrayLikeObject] on an object: its [length] is a valid length. *)
Definition arrayLikeLength (fs : fields) : option nat :=
  match get fs "length" with
  | VNum n =>
      if (0 <=? n) && (n <=? MAX_SAFE_INTEGER) then Some (Z.to_nat n) else None
  | _ => None
  end.


(** [copyArray] of an array-like object: what it holds at the indices below
    its length. *)
Definition copyArray (fs : fields) (n : nat) : list value :=
  map (fun i => get fs (indexKey i)) (seq 0 n).

(** The value that [baseMerge] computes for one key: the customizer's result
    if it gives one.  Otherwise a source array is merged index by index
    into a new array, which starts empty, or as the copy of the destination
    when that is an array-like object; a source object is merged into the
    destination object (into a new object when the destination is not an
    object); and a primitive is taken as it is. *)
Fixpoint mergeValue (objValue srcValue : value) {struct srcValue} : value :=
  match customizer objValue srcValue with
  | Some newValue => newValue
  | None =>
      match srcValue with
      | VArr xs =>
          let dest :=
            match objValue with
            | VObj ofs =>
                match arrayLikeLength ofs with
                | Some n => copyArray ofs n
                | None => []
                end
            | _ => []
            end in
          VArr ((fix each (l : list value) (d : list value) : list value :=
                   match l with
                   | [] => d
                   | x :: r =>
                       match d with
                       | [] => mergeValue VUndef x :: each r []
                       | o :: dr =>
                           match mergeValue o x with
                           | VUndef => o
                           | nv => nv
                           end :: each r dr
                       end
                   end) xs dest)
      | VObj sfs =>
          let dest := match objValue with VObj ofs => ofs | _ => [] end in
          VObj ((fix each (src : fields) (o : fields) : fields :=
                   match src with
                   | [] => o
                   | (k, sv) :: r =>
                       each r (assignMergeValue o k (mergeValue (get o k) sv))
                   end) sfs dest)
      | _ => srcValue
      end
  end.

(** [baseMerge(array, source)] for an array source, index by index:
    [undefined] is only written to an index the array does not have. *)
Fixpoint mergeArr (d l : list value) : list value :=
  match l with
  | [] => d
  | x :: r =>
      match d with
      | [] => mergeValue VUndef x :: mergeArr [] r
      | o :: dr =>
          match mergeValue o x with
          | VUndef => o
          | nv => nv
          end :: mergeArr dr r
      end
  end.

(** [baseMerge(object, source)] over the keys of [source]. *)
Fixpoint baseMerge (o : fields) (src : fields) : fields :=
  match src with
  | [] => o
  | (k, sv) :: r => baseMerge (assignMergeValue o k (mergeValue (get o k) sv)) r
  end.

(** [_.mergeWith(object, source, customizer)] for an object destination.
    A falsy source is skipped.  The keys of an array or a string source are
    its indices, a number or a boolean has none. *)
Definition truthy (v : value) : bool :=
  match v with
  | VUndef | VNull | VBool false | VNum 0 | VStr "" => false
  | _ => true
  end.

Definition indexed (xs : list value) : fields :=
  imap (fun i x => (indexKey i, x)) xs.

Fixpoint chars (s : string) : list value :=
  match s with
  | EmptyString => []
  | String c r => VStr (String c EmptyString) :: chars r
  end.

Definition keysIn (source : value) : fields :=
  match source with
  | VObj fs => fs
  | VArr xs => indexed xs
  | VStr s => indexed (chars s)
  | _ => []
  end.

Definition mergeWith (o : fields) (source : value) : fields :=
  if truthy source then baseMerge o (keysIn source) else o.

(** ** [exports.merge] on the store *)

(** References to objects, and the store they point into. *)
Abbreviation ref := nat (only parsing).
Abbreviation store := (gmap nat fields) (only parsing).

(** [merge(old, fresh)] on a store that holds each object as a value:
    [_.mergeWith] assigns into [old] and returns that same reference; it
    returns at once when both arguments are one object.  This is what the
    call computes when the two arguments share no object; [Heap.merge]
    below is the call on objects with an identity. *)
Definition merge (h : store) (old fresh : ref) : store * ref :=
  match h !! old, h !! fresh with
  | Some o, Some s =>
      if decide (old = fresh) then (h, old)
      else (<[old := baseMerge o s]> h, old)
  | _, _ => (h, old)
  end.

(** A store holding two objects, at references 0 and 1. *)
Definition twoObjects (a b : fields) : gmap nat fields :=
  {[ 0%nat := a; 1%nat := b ]}.

(** ** Strings: [_.includes], [_.startsWith], [_.trimStart] *)

(** [_.includes(string, target)]: [string.indexOf(target) > -1]. *)
Fixpoint includes (s target : string) : bool :=
  if String.prefix target s then true
  else match s with
       | EmptyString => false
       | String _ r => includes r target
       end.

(** [_.startsWith(string, target)]:
    [string.slice(0, target.length) == target]. *)
Definition startsWith (s target : string) : bool := String.prefix target s.

Fixpoint charIn (c : ascii) (set : string) : bool :=
  match set with
  | EmptyString => false
  | String d r => if Ascii.eqb c d then true else charIn c r
  end.

(** [_.trimStart(string, chars)]: [charsStartIndex] finds the first symbol of
    [string] that is not one of the symbols of [chars]; the string is cut
    there.  [chars] is a set of characters, not a prefix. *)
Fixpoint trimStart (s chars : string) : string :=
  match s with
  | EmptyString => EmptyString
  | String c r => if charIn c chars then trimStart r chars else s
  end.

(** ** The process environment *)

Inductive platform : Type := win32 | darwin | linux | otherPlatform.

(** [process.env]: variable names to strings, in enumeration order. *)
Abbreviation environment := (list (string * string)) (only parsing).

(** [path.delimiter] *)
Definition delimiter (pf : platform) : string :=
  match pf with win32 => ";" | _ => ":" end.

Definition pathVar (pf : platform) : string :=
  match pf with win32 => "Path" | _ => "PATH" end.

(** [[a, b].join(sep)] where [b] may be [undefined], which joins as empty. *)
Definition join2 (a : string) (b : option string) (sep : string) : string :=
  a ++ sep ++ default "" b.

(** [updatePath(dir)]: the new environment and the returned value. *)
Definition updatePath (pf : platform) (env : environment) (dir : string)
  : environment * option string :=
  let p := pathVar pf in
  let env' :=
    if negb (startsWith (default "" (lookup_prop env p)) dir)
    then set env p (join2 dir (lookup_prop env p) (delimiter pf))
    else env in
  (env', lookup_prop env' p).

Section loadEnvs.
(** [_.camelCase], left to lodash. *)
Variable camelCase : string -> string.

(** [_.forEach(process.env, ...)] with the accumulator [envConfig]. *)
Fixpoint loadEnvs_from (envConfig : environment) (prefix : string)
         (env : environment) : environment :=
  match env with
  | [] => envConfig
  | (key, value) :: rest =>
      if includes key prefix
      then loadEnvs_from
             (set envConfig (camelCase (trimStart key prefix)) value)
             prefix rest
      else loadEnvs_from envConfig prefix rest
  end.

Definition loadEnvs (env : environment) (prefix : string) : environment :=
  loadEnvs_from [] prefix env.
End loadEnvs.

(** ** Exceptions *)

Inductive exn : Type :=
  | YAMLException (msg : string)
  | IOError (msg : string)
  | TypeError (msg : string)
  | RemoteError (msg : string).

(** A computation ends with a value or throws. *)
Inductive completion (A : Type) : Type :=
  | Normal (a : A)
  | Throws (e : exn).
Arguments Normal {A} a.
Arguments Throws {A} e.

Definition bind {A B : Type} (c : completion A) (k : A -> completion B)
  : completion B :=
  match c with
  | Normal a => k a
  | Throws e => Throws e
  end.

Notation "'run' x := c 'in' k" := (bind c (fun x => k))
  (at level 10, x name, c at level 100, k at level 200).

(** ** [loadFiles] *)

Section loadFiles.
(** The file system: [None] where [fs.existsSync] is false, otherwise what
    [fs.readFileSync] does there. *)
Variable fs : string -> option (completion string).
(** [yaml.safeLoad], left to js-yaml. *)
Variable safeLoad : string -> completion value.

Definition existsSync (file : string) : bool :=
  match fs file with Some _ => true | None => false end.

Definition readFileSync (file : string) : completion string :=
  match fs file with
  | Some r => r
  | None => Throws (IOError "ENOENT")
  end.

(** The body of the [_.forEach], threading [conf]. *)
Fixpoint loadFiles_from (conf : fields) (files : list string)
  : completion fields :=
  match files with
  | [] => Normal conf
  | file :: rest =>
      if existsSync file then
        run buf := readFileSync file in
        run doc := safeLoad buf in
        loadFiles_from (mergeWith conf doc) rest
      else loadFiles_from conf rest
  end.

Definition loadFiles (files : list string) : completion fields :=
  loadFiles_from [] files.
End loadFiles.

(** ** Conversions *)

(** Number::toString for an integer. *)
Definition numberToString (n : Z) : string :=
  NilZero.string_of_int (Z.to_int n).

Fixpoint joinWith (sep : string) (l : list string) : string :=
  match l with
  | [] => ""
  | [x] => x
  | x :: r => x ++ sep ++ joinWith sep r
  end.

(** ToString; an array prints through [Array.prototype.join], where
    [undefined] and [null] elements print as nothing. *)
Fixpoint ToString (v : value) : string :=
  match v with
  | VUndef => "undefined"
  | VNull => "null"
  | VBool true => "true"
  | VBool false => "false"
  | VNum n => numberToString n
  | VStr s => s
  | VArr xs =>
      joinWith ","
        ((fix each (l : list value) : list string :=
            match l with
            | [] => []
            | x :: r =>
                match x with
                | VUndef | VNull => ""
                | _ => ToString x
                end :: each r
            end) xs)
  | VObj _ => "[object Object]"
  end.

(** lodash's [baseToString] maps itself over an array, and [_.toString]
    turns [null] and [undefined] into the empty string. *)
Fixpoint baseToString (v : value) : string :=
  match v with
  | VArr xs =>
      joinWith ","
        ((fix each (l : list value) : list string :=
            match l with
            | [] => []
            | x :: r => baseToString x :: each r
            end) xs)
  | _ => ToString v
  end.

Definition toString (v : value) : string :=
  match v with
  | VUndef | VNull => ""
  | _ => baseToString v
  end.

(** [object.key]: reading from [undefined] or [null] throws; the keys read in
    this program are names, which primitives and arrays do not have. *)
Definition member (v : value) (k : string) : completion value :=
  match v with
  | VUndef | VNull => Throws (TypeError "Cannot read property")
  | VObj fs => Normal (get fs k)
  | _ => Normal VUndef
  end.

(** [_.get(object, key, defaultValue)] *)
Definition lodash_get (o : value) (k : string) (defaultValue : value) : value :=
  match o with
  | VObj fs =>
      match get fs k with
      | VUndef => defaultValue
      | v => v
      end
  | _ => defaultValue
  end.

Section ToNumber.
(** StringToNumber of the language; [None] is NaN. *)
Variable StringToNumber : string -> option Z.

(** ToNumber, objects going through ToPrimitive. *)
Definition ToNumber (v : value) : option Z :=
  match v with
  | VUndef => None
  | VNull => Some 0
  | VBool true => Some 1
  | VBool false => Some 0
  | VNum n => Some n
  | VStr s => StringToNumber s
  | VArr _ | VObj _ => StringToNumber (ToString v)
  end.

(** [a >= b] with a number on the right: false when [a] is NaN. *)
Definition ge_number (a : value) (b : Z) : bool :=
  match ToNumber a with
  | Some x => x >=? b
  | None => false
  end.

(** ** [fetch] *)

(** [now] is the one reading of [Math.floor(Date.now())]. *)
Definition fetch (data : value) (now : Z) : completion bool :=
  if negb (truthy data) then Normal true
  else
    run e := member data "expires" in
    Normal (negb (ge_number e now)).
End ToNumber.

(** ** [refresh] *)

Record updateRecord : Type := {
  version : string;
  url : value;
  expires : Z
}.

(** [release.draft === false && release.prerelease === false] *)
Definition isFalse (v : value) : bool :=
  match v with VBool false => true | _ => false end.

Definition eligible (release : value) : completion bool :=
  run d := member release "draft" in
  if isFalse d
  then (run p := member release "prerelease" in Normal (isFalse p))
  else Normal false.

Fixpoint findFirst (xs : list value) : completion value :=
  match xs with
  | [] => Normal VUndef
  | x :: r => run ok := eligible x in if ok then Normal x else findFirst r
  end.

(** [_.find(collection, predicate)]: an array-like collection is walked by
    index, any other object through its values. *)
Definition find (collection : value) : completion value :=
  match collection with
  | VArr xs => findFirst xs
  | VStr s => findFirst (chars s)
  | VObj fs =>
      match get fs "length" with
      | VNum n =>
          if (0 <=? n) && (n <=? MAX_SAFE_INTEGER)
          then findFirst (map (fun i => get fs (indexKey i)) (seq 0 (Z.to_nat n)))
          else findFirst (map snd fs)
      | _ => findFirst (map snd fs)
      end
  | _ => Normal VUndef
  end.

Definition day : Z := 86400000.

(** The [then] handler. *)
Definition onReleases (currentVersion : string) (now : Z) (data : value)
  : completion updateRecord :=
  run found := find (lodash_get data "data" (VArr [])) in
  Normal {| version :=
              trimStart (toString (lodash_get found "tag_name" (VStr currentVersion))) "v";
            url := lodash_get found "html_url" (VStr "");
            expires := now + day |}.

(** The [catch] handler. *)
Definition onFailure (currentVersion : string) (now : Z) (_ : exn)
  : completion updateRecord :=
  Normal {| version := trimStart currentVersion "v";
            url := VStr "";
            expires := now + day |}.

(** [promise.catch(handler)] *)
Definition catch {A : Type} (c : completion A) (handler : exn -> completion A)
  : completion A :=
  match c with
  | Normal a => Normal a
  | Throws e => handler e
  end.

(** [refresh(version)]: [releases] is how the promise of
    [github.repos.getReleases] settles. *)
Definition refresh (releases : completion value) (currentVersion : string)
           (now : Z) : completion updateRecord :=
  catch (bind releases (onReleases currentVersion now))
        (onFailure currentVersion now).

(** ** [updateAvailable] *)

Module Semver.

(** A pre-release identifier is numeric or alphanumeric. *)
Inductive ident : Type :=
  | Numeric (n : N)
  | Alnum (s : string).

Record t : Type := {
  major : N;
  minor : N;
  patch : N;
  prerelease : list ident
}.

Definition isDigit (c : ascii) : bool :=
  let n := N_of_ascii c in ((48 <=? n) && (n <=? 57))%N.

Definition isIdentChar (c : ascii) : bool :=
  let n := N_of_ascii c in
  (isDigit c || ((65 <=? n) && (n <=? 90)) || ((97 <=? n) && (n <=? 122))
   || (n =? 45))%N.

Fixpoint allChars (p : ascii -> bool) (s : string) : bool :=
  match s with
  | EmptyString => true
  | String c r => p c && allChars p r
  end.

Fixpoint digitsValue (acc : N) (s : string) : N :=
  match s with
  | EmptyString => acc
  | String c r => digitsValue (10 * acc + (N_of_ascii c - 48))%N r
  end.

Definition parseNumber (s : string) : option N :=
  match s with
  | EmptyString => None
  | _ => if allChars isDigit s then Some (digitsValue 0%N s) else None
  end.

(** The pieces of [s] between occurrences of [sep]. *)
Fixpoint splitOn (sep : ascii) (s : string) : list string :=
  match s with
  | EmptyString => [EmptyString]
  | String c r =>
      if Ascii.eqb c sep then EmptyString :: splitOn sep r
      else match splitOn sep r with
           | [] => [String c EmptyString]
           | h :: tl => String c h :: tl
           end
  end.

(** [s] before the first [sep], and what follows it if there is one. *)
Fixpoint cutAt (sep : ascii) (s : string) : string * option string :=
  match s with
  | EmptyString => (EmptyString, None)
  | String c r =>
      if Ascii.eqb c sep then (EmptyString, Some r)
      else let '(h, tl) := cutAt sep r in (String c h, tl)
  end.

Definition parseIdent (s : string) : option ident :=
  match s with
  | EmptyString => None
  | _ =>
      if allChars isDigit s then Some (Numeric (digitsValue 0%N s))
      else if allChars isIdentChar s then Some (Alnum s)
      else None
  end.

Fixpoint parseIdents (l : list string) : option (list ident) :=
  match l with
  | [] => Some []
  | s :: r =>
      match parseIdent s, parseIdents r with
      | Some i, Some ids => Some (i :: ids)
      | _, _ => None
      end
  end.

(** Modelled from the spec: the parser of the semver package, which is not
    among the sources: major.minor.patch, then an optional pre-release
    after a hyphen and optional build metadata after a plus sign. *)
Definition parse (s : string) : option t :=
  let '(body, _) := cutAt "+" s in
  let '(core, pre) := cutAt "-" body in
  match map parseNumber (splitOn "." core) with
  | [Some ma; Some mi; Some pa] =>
      match pre with
      | None => Some {| major := ma; minor := mi; patch := pa; prerelease := [] |}
      | Some p =>
          match parseIdents (splitOn "." p) with
          | Some ids =>
              Some {| major := ma; minor := mi; patch := pa; prerelease := ids |}
          | None => None
          end
      end
  | _ => None
  end.

Definition compareIdent (a b : ident) : comparison :=
  match a, b with
  | Numeric x, Numeric y => (x ?= y)%N
  | Numeric _, Alnum _ => Lt
  | Alnum _, Numeric _ => Gt
  | Alnum x, Alnum y => String.compare x y
  end.

Fixpoint compareIdents (a b : list ident) : comparison :=
  match a, b with
  | [], [] => Eq
  | [], _ :: _ => Lt
  | _ :: _, [] => Gt
  | x :: xs, y :: ys =>
      match compareIdent x y with
      | Eq => compareIdents xs ys
      | c => c
      end
  end.

Definition comparePre (a b : list ident) : comparison :=
  match a, b with
  | [], [] => Eq
  | [], _ :: _ => Gt
  | _ :: _, [] => Lt
  | _, _ => compareIdents a b
  end.

Definition thenCompare (c d : comparison) : comparison :=
  match c with Eq => d | _ => c end.

(** Modelled from the spec: the comparison of the semver package, which is
    not among the sources: major, minor and patch in turn, then pre-release
    precedence. *)
Definition compare (a b : t) : comparison :=
  thenCompare (major a ?= major b)%N
    (thenCompare (minor a ?= minor b)%N
       (thenCompare (patch a ?= patch b)%N
          (comparePre (prerelease a) (prerelease b)))).

(** Modelled from the spec: [semver.lt] of the semver package, which is
    not among the sources; [None] where an argument is not a version. *)
Definition lt (v1 v2 : string) : option bool :=
  match parse v1, parse v2 with
  | Some a, Some b =>
      Some (match compare a b with Lt => true | _ => false end)
  | _, _ => None
  end.

(** Precedence as semantic versioning words it.  Numeric identifiers compare
    as numbers and come before alphanumeric ones, which compare as ASCII
    text; of two lists that agree as far as the shorter goes, the shorter
    comes first. *)
Inductive identLt : ident -> ident -> Prop :=
  | numeric_numeric x y : (x < y)%N -> identLt (Numeric x) (Numeric y)
  | numeric_alnum x s : identLt (Numeric x) (Alnum s)
  | alnum_alnum s u : String.ltb s u = true -> identLt (Alnum s) (Alnum u).

Inductive identsLt : list ident -> list ident -> Prop :=
  | lt_shorter y ys : identsLt [] (y :: ys)
  | lt_here x y xs ys : identLt x y -> identsLt (x :: xs) (y :: ys)
  | lt_later x xs ys : identsLt xs ys -> identsLt (x :: xs) (x :: ys).

(** A pre-release comes before the release it leads to. *)
Definition preLt (p q : list ident) : Prop :=
  p <> [] /\ (q = [] \/ identsLt p q).

Definition precedes (a b : t) : Prop :=
  (major a < major b)%N \/
  (major a = major b /\
   ((minor a < minor b)%N \/
    (minor a = minor b /\
     ((patch a < patch b)%N \/
      (patch a = patch b /\ preLt (prerelease a) (prerelease b)))))).

End Semver.

(** [updateAvailable(version1, version2)] is [semver.lt(version1, version2)]. *)
Definition updateAvailable (version1 version2 : string) : option bool :=
  Semver.lt version1 version2.

(** ** Well-formed values and reference definitions *)

Fixpoint distinct (l : list string) : bool :=
  match l with
  | [] => true
  | k :: r => negb (existsb (String.eqb k) r) && distinct r
  end.

(** An object has each key once, at every depth. *)
Fixpoint wf (v : value) : bool :=
  match v with
  | VArr xs =>
      (fix all (l : list value) : bool :=
         match l with
         | [] => true
         | x :: r => wf x && all r
         end) xs
  | VObj fs =>
      distinct (map fst fs) &&
      (fix all (l : fields) : bool :=
         match l with
         | [] => true
         | (_, x) :: r => wf x && all r
         end) fs
  | _ => true
  end.

(** Deduplication as the specification words it: every element stays at
    its first occurrence and its later occurrences are removed. *)
Fixpoint dedup (l : list value) : list value :=
  match l with
  | [] => []
  | x :: r => x :: List.filter (fun y => negb (sameValueZero x y)) (dedup r)
  end.

(** An entry of the release feed, and the response that carries a listing. *)
Record release : Type := {
  tag_name : string;
  html_url : string;
  draft : bool;
  prerelease : bool
}.

Definition releaseValue (r : release) : value :=
  VObj [("tag_name", VStr (tag_name r)); ("html_url", VStr (html_url r));
        ("draft", VBool (draft r)); ("prerelease", VBool (prerelease r))].

Definition response (listing : list release) : value :=
  VObj [("data", VArr (map releaseValue listing))].

(** An object of the listing that carries the four fields of the release
    [r], whatever else it carries. *)
Definition isReleaseOf (efs : fields) (r : release) : Prop :=
  get efs "tag_name" = VStr (tag_name r) /\
  get efs "html_url" = VStr (html_url r) /\
  get efs "draft" = VBool (draft r) /\
  get efs "prerelease" = VBool (prerelease r).

(** An entry of a listing with both flags exactly false, and an entry that is
    neither that nor [null] nor [undefined]. *)
Definition bothFlagsFalse (efs : fields) : Prop :=
  get efs "draft" = VBool false /\ get efs "prerelease" = VBool false.

Definition passedOver (x : value) : Prop :=
  x <> VNull /\ x <> VUndef /\
  forall efs, x = VObj efs -> ~ bothFlagsFalse efs.

Definition isEligible (r : release) : bool :=
  negb (draft r) && negb (prerelease r).

(** The string made of [n] copies of the letter v. *)
Fixpoint vs (n : nat) : string :=
  match n with
  | O => ""
  | S m => String "v" (vs m)
  end.

(** StringToNumber on a string of decimal digits, and on the empty string;
    used where a concrete conversion is needed and only such strings occur. *)
Definition digitsToNumber (s : string) : option Z :=
  match s with
  | EmptyString => Some 0
  | _ => option_map Z.of_N (Semver.parseNumber s)
  end.



(** ASCII lower case, which is what [_.camelCase] makes of a single word of
    capital letters. *)
Definition lowerChar (c : ascii) : ascii :=
  let n := N_of_ascii c in
  if ((65 <=? n) && (n <=? 90))%N then ascii_of_N (n + 32) else c.

Fixpoint lowercase (s : string) : string :=
  match s with
  | EmptyString => EmptyString
  | String c r => String (lowerChar c) (lowercase r)
  end.

(** ** [stripEnv], [getSysConfRoot] and the search path block of [defaults] *)

(** [delete object[key]] *)
Fixpoint del {A : Type} (o : list (string * A)) (k : string) : list (string * A) :=
  match o with
  | [] => []
  | (k', v') :: r => if String.eqb k k' then del r k else (k', v') :: del r k
  end.

(** The [_.each] of [stripEnv]: lodash takes the names of [process.env] once,
    before the first call of the function, and the function deletes from
    the environment as it goes. *)
Fixpoint stripEnv_each (names : list string) (prefix : string)
         (env : list (string * string)) : list (string * string) :=
  match names with
  | [] => env
  | key :: rest =>
      stripEnv_each rest prefix
        (if includes key prefix then del env key else env)
  end.

(** [stripEnv(prefix)]: the environment after the call, which is also what
    the call returns. *)
Definition stripEnv (env : list (string * string)) (prefix : string)
  : list (string * string) :=
  stripEnv_each (map fst env) prefix env.

(** [getSysConfRoot()]: [None] is the [undefined] of a [switch] with no
    matching case.  An empty [LANDO_INSTALL_PATH] is falsy. *)
Definition getSysConfRoot (pf : platform) (env : list (string * string))
  : option string :=
  let win :=
    match lookup_prop env "LANDO_INSTALL_PATH" with
    | Some (String c r) => String c r
    | _ => "C:\Program Files\Lando"
    end in
  match pf with
  | win32 => Some win
  | darwin => Some "/Applications/Lando.app/Contents/MacOS"
  | linux => Some "/usr/share/lando"
  | otherPlatform => None
  end.

(** One round of the [_.forEach] over the git directories in [defaults]. *)
Definition prependGitBin (existsSync : string -> bool)
           (env : list (string * string)) (gBin : string)
  : list (string * string) :=
  if existsSync gBin
     && negb (startsWith (default "" (lookup_prop env "Path")) gBin)
  then set env "Path" (join2 gBin (lookup_prop env "Path") ";")
  else env.

(** [path.join(first, ...rest)] where [first] was read from the
    environment: an unset variable is [undefined], on which [path.join]
    throws a TypeError; [join] is what it makes of strings. *)
Definition pathJoin (join : list string -> string) (first : option string)
           (rest : list string) : completion string :=
  match first with
  | Some s => Normal (join (s :: rest))
  | None => Throws (TypeError "Path must be a string")
  end.

(** What [defaults()] does to the environment: on win32 it builds the three
    git directories, which throws if one of the three variables is unset,
    and walks them in order; elsewhere it leaves the environment alone. *)
Definition defaultsEnv (pf : platform) (join : list string -> string)
           (existsSync : string -> bool) (env : list (string * string))
  : completion (list (string * string)) :=
  match pf with
  | win32 =>
      run gitBin1 := pathJoin join (lookup_prop env "LOCALAPPDATA")
                              ["Programs"; "Git"; "usr"; "bin"] in
      run gitBin2 := pathJoin join (lookup_prop env "ProgramFiles")
                              ["Git"; "usr"; "bin"] in
      run gitBin3 := pathJoin join (lookup_prop env "ProgramW6432")
                              ["Git"; "usr"; "bin"] in
      Normal (fold_left (prependGitBin existsSync)
                        [gitBin1; gitBin2; gitBin3] env)
  | _ => Normal env
  end.

(** Joining plain directory names on win32. *)
Definition backslashJoin (parts : list string) : string :=
  joinWith "\" parts.

(** The object literal that [refresh] returns, as a value. *)
Definition recordValue (r : updateRecord) : value :=
  VObj [("version", VStr (version r)); ("url", url r);
        ("expires", VNum (expires r))].

(** A primitive is anything but an array or an object. *)
Definition isPrimitive (v : value) : bool := negb (isObject v).

(** A second file system to run [loadFiles] on: two configuration files, an
    empty file, and a file that cannot be read. *)
Definition siteFs (p : string) : option (completion string) :=
  if String.eqb p "base.yml" then Some (Normal "base")
  else if String.eqb p "site.yml" then Some (Normal "site")
  else if String.eqb p "empty.yml" then Some (Normal "")
  else if String.eqb p "locked.yml" then Some (Throws (IOError "EACCES"))
  else None.

Definition siteSafeLoad (buf : string) : completion value :=
  if String.eqb buf "base"
  then Normal (VObj [("name", VStr "base"); ("plugins", VArr [VStr "a"])])
  else if String.eqb buf "site"
  then Normal (VObj [("name", VStr "site"); ("plugins", VArr [VStr "a"; VStr "b"])])
  else if String.eqb buf "" then Normal VUndef
  else Throws (YAMLException "bad document").

(** The documents that give [_.mergeWith] nothing to assign: the falsy ones,
    numbers and booleans, and the empty array and object. *)
Definition emptyDocument (doc : value) : bool :=
  match doc with
  | VUndef | VNull | VBool _ | VNum _ | VStr "" | VArr [] | VObj [] => true
  | _ => false
  end.

(** ** [merge] on a heap of objects

    The values above are trees: they say what a merge computes when its
    arguments share no object.  What a merge writes, and to which objects,
    needs objects with an identity.  Here a value is a primitive or a
    reference into a heap of cells, and [_.mergeWith] is the same algorithm
    as [mergeValue] and [baseMerge], writing into the cells. *)

Module Heap.

(** A value is a primitive or a reference to a cell of the heap. *)
Inductive hval : Type :=
  | HUndef
  | HNull
  | HBool (b : bool)
  | HNum (n : Z)
  | HStr (s : string)
  | HRef (l : nat).

(** A cell is an object, or an array with its elements and the named
    properties it was given (names other than its indices and [length]). *)
Inductive cell : Type :=
  | CObj (fs : list (string * hval))
  | CArr (xs : list hval) (props : list (string * hval)).

Abbreviation heap := (list cell) (only parsing).

(** A key met while walking a source: a name, or an index of an array. *)
Inductive key : Type :=
  | KStr (s : string)
  | KIdx (i : nat).

Definition keyName (k : key) : string :=
  match k with
  | KStr s => s
  | KIdx i => indexKey i
  end.

Definition hget (fs : list (string * hval)) (k : string) : hval :=
  default HUndef (lookup_prop fs k).

(** References always point into the heap; one that does not reads as an
    empty object. *)
Definition cellAt (h : list cell) (l : nat) : cell :=
  default (CObj []) (h !! l).

(** [object[key]] *)
Definition readKey (h : list cell) (o : nat) (k : key) : hval :=
  match cellAt h o, k with
  | CObj fs, _ => hget fs (keyName k)
  | CArr xs _, KIdx i => nth i xs HUndef
  | CArr _ props, KStr s => hget props s
  end.

(** [key in object] *)
Definition hasKey (h : list cell) (o : nat) (k : key) : bool :=
  match cellAt h o, k with
  | CObj fs, _ => has fs (keyName k)
  | CArr xs _, KIdx i => (i <? length xs)%nat
  | CArr _ props, KStr s => has props s
  end.

(** Writing at an index of an array: in place below the length, and
    otherwise after padding up to the index. *)
Definition setIndex (xs : list hval) (i : nat) (v : hval) : list hval :=
  if (i <? length xs)%nat then <[i := v]> xs
  else (xs ++ repeat HUndef (i - length xs) ++ [v])%list.

(** [object[key] = value] *)
Definition writeKey (h : list cell) (o : nat) (k : key) (v : hval) : list cell :=
  match cellAt h o, k with
  | CObj fs, _ => <[o := CObj (set fs (keyName k) v)]> h
  | CArr xs props, KIdx i => <[o := CArr (setIndex xs i v) props]> h
  | CArr xs props, KStr s => <[o := CArr xs (set props s v)]> h
  end.

(** The keys that [baseFor] walks: the names of an object; the indices of
    an array, then its names. *)
Definition keysOf (h : list cell) (l : nat) : list key :=
  match cellAt h l with
  | CObj fs => map (fun kv => KStr (fst kv)) fs
  | CArr xs props =>
      (map KIdx (seq 0 (length xs)) ++ map (fun kv => KStr (fst kv)) props)%list
  end.

(** SameValueZero: references are equal when they are one reference. *)
Definition sameValueZero (a b : hval) : bool :=
  match a, b with
  | HUndef, HUndef => true
  | HNull, HNull => true
  | HBool x, HBool y => Bool.eqb x y
  | HNum x, HNum y => Z.eqb x y
  | HStr x, HStr y => String.eqb x y
  | HRef x, HRef y => Nat.eqb x y
  | _, _ => false
  end.

Fixpoint baseUniq (seen xs : list hval) : list hval :=
  match xs with
  | [] => []
  | x :: r =>
      if existsb (sameValueZero x) seen then baseUniq seen r
      else x :: baseUniq (x :: seen) r
  end.

Definition uniq (xs : list hval) : list hval := baseUniq [] xs.

(** [s.concat(f)]: the elements of an array [f] are spread. *)
Definition concat (h : list cell) (s : list hval) (f : hval) : list hval :=
  match f with
  | HRef l =>
      match h !! l with
      | Some (CArr ys _) => (s ++ ys)%list
      | _ => (s ++ [f])%list
      end
  | _ => (s ++ [f])%list
  end.

(** The customizer: for an array [s] a new array [_.uniq(s.concat(f))] is
    allocated and returned; [None] is the implicit [undefined]. *)
Definition customizer (h : list cell) (s f : hval) : option (list cell * hval) :=
  match s with
  | HRef l =>
      match h !! l with
      | Some (CArr xs _) =>
          Some ((h ++ [CArr (uniq (concat h xs f)) []])%list, HRef (length h))
      | _ => None
      end
  | _ => None
  end.

(** [assignMergeValue] *)
Definition assignMergeValue (h : list cell) (o : nat) (k : key) (v : hval)
  : list cell :=
  match v with
  | HUndef => if hasKey h o k then h else writeKey h o k HUndef
  | _ => writeKey h o k v
  end.

(** [copyArray(objValue)] when [objValue] is an array-like object. *)
Definition arrayLike (h : list cell) (v : hval) : option (list hval) :=
  match v with
  | HRef l =>
      match h !! l with
      | Some (CObj fs) =>
          match hget fs "length" with
          | HNum n =>
              if (0 <=? n) && (n <=? MAX_SAFE_INTEGER)
              then Some (map (fun i => hget fs (indexKey i)) (seq 0 (Z.to_nat n)))
              else None
          | _ => None
          end
      | _ => None
      end
  | _ => None
  end.

(** The object that a source object is merged into: [objValue] itself when
    it is an object, a new empty object otherwise. *)
Definition isObjectCell (h : list cell) (v : hval) : option nat :=
  match v with
  | HRef l => match h !! l with Some (CObj _) => Some l | _ => None end
  | _ => None
  end.

Fixpoint stackGet (stack : list (nat * hval)) (l : nat) : option hval :=
  match stack with
  | [] => None
  | (l', v) :: r => if Nat.eqb l l' then Some v else stackGet r l
  end.

Section mergeKey.
(** The recursive call of [baseMergeDeep]. *)
Variable rec : list cell -> list (nat * hval) -> nat -> nat -> option (list cell).
Variable stack : list (nat * hval).
Variable object source : nat.

(** [baseMergeDeep] once no stacked value and no customizer result was
    found: the destination is a new array (the copy of an array-like
    [objValue], or empty) for an array source; for an object source it is
    [objValue] when that is an object, and a new object otherwise.  The
    source is merged into it and it is assigned. *)
Definition mergeCommon (h : list cell) (k : key) (objValue : hval) (src : nat)
  : option (list cell) :=
  let '(h1, dest) :=
    match cellAt h src with
    | CArr _ _ =>
        ((h ++ [CArr (default [] (arrayLike h objValue)) []])%list, length h)
    | CObj _ =>
        match isObjectCell h objValue with
        | Some l => (h, l)
        | None => ((h ++ [CObj []])%list, length h)
        end
    end in
  match rec h1 ((src, HRef dest) :: stack) dest src with
  | Some h2 => Some (assignMergeValue h2 object k (HRef dest))
  | None => None
  end.

(** One round of the loop of [baseMerge], for the key [k] of [source]. *)
Definition mergeKey (h : list cell) (k : key) : option (list cell) :=
  let srcValue := readKey h source k in
  let objValue := readKey h object k in
  match srcValue with
  | HRef src =>
      match stackGet stack src with
      | Some stacked => Some (assignMergeValue h object k stacked)
      | None =>
          match customizer h objValue srcValue with
          | Some (h1, newValue) => Some (assignMergeValue h1 object k newValue)
          | None => mergeCommon h k objValue src
          end
      end
  | _ =>
      match customizer h objValue srcValue with
      | Some (h1, newValue) => Some (assignMergeValue h1 object k newValue)
      | None => Some (assignMergeValue h object k srcValue)
      end
  end.

Fixpoint each (ks : list key) (h : list cell) : option (list cell) :=
  match ks with
  | [] => Some h
  | k :: rest =>
      match mergeKey h k with
      | Some h1 => each rest h1
      | None => None
      end
  end.
End mergeKey.

(** [baseMerge(object, source)]: nothing to do when both are one object;
    otherwise the keys of [source] are taken once and walked.  [stack] maps
    the sources being merged to their destinations; [fuel] bounds the depth
    of the recursion. *)
Fixpoint baseMerge (fuel : nat) (h : list cell) (stack : list (nat * hval))
         (object source : nat) {struct fuel} : option (list cell) :=
  match fuel with
  | O => None
  | S fuel' =>
      if Nat.eqb object source then Some h
      else each (baseMerge fuel') stack object source (keysOf h source) h
  end.

(** [exports.merge(old, fresh)] for an object [old]: [_.mergeWith] returns
    its first argument.  [None] when the fuel runs out, and for an [old]
    that is not an object of the heap. *)
Definition merge (fuel : nat) (h : list cell) (old fresh : nat)
  : option (list cell * nat) :=
  match h !! old with
  | Some (CObj _) =>
      match baseMerge fuel h [] old fresh with
      | Some h' => Some (h', old)
      | None => None
      end
  | _ => None
  end.

(** Reading a heap value back as a tree, to compare with [mergeValue]. *)
Fixpoint decode (fuel : nat) (h : list cell) (v : hval) : value :=
  match v with
  | HUndef => VUndef
  | HNull => VNull
  | HBool b => VBool b
  | HNum n => VNum n
  | HStr s => VStr s
  | HRef l =>
      match fuel with
      | O => VUndef
      | S fuel' =>
          match cellAt h l with
          | CObj fs => VObj (map (fun kv => (fst kv, decode fuel' h (snd kv))) fs)
          | CArr xs _ => VArr (map (decode fuel' h) xs)
          end
      end
  end.

(** The values a cell holds. *)
Definition vals (c : cell) : list hval :=
  match c with
  | CObj fs => map snd fs
  | CArr xs props => (xs ++ map snd props)%list
  end.

(** [reach h a l]: the cell [l] can be reached from the cell [a] through
    the references that cells hold. *)
Inductive reach (h : list cell) (a : nat) : nat -> Prop :=
  | reach_here : reach h a a
  | reach_step l c r :
      reach h a l -> h !! l = Some c -> List.In (HRef r) (vals c) ->
      reach h a r.

(** [apart h a v d]: [v] is a tree of depth at most [d], made of cells of
    [h] none of which can be reached from [a]. *)
Unset Elimination Schemes.
Inductive apart (h : list cell) (a : nat) : hval -> nat -> Prop :=
  | apart_prim v d : (forall l, v <> HRef l) -> apart h a v d
  | apart_ref l c d :
      ~ reach h a l -> h !! l = Some c ->
      List.Forall (fun v => apart h a v d) (vals c) ->
      apart h a (HRef l) (S d).
Set Elimination Schemes.


(** The invariant of a merge that started in the heap [h0], for a set [P]
    of cells of [h0]: a value is all right when it does not refer to a cell
    of [h0] outside [P]; a cell is good when all its values are. *)
Definition okv (h0 : list cell) (P : nat -> Prop) (v : hval) : Prop :=
  forall r, v = HRef r -> (r < length h0)%nat -> P r.

Definition goodCell (h0 : list cell) (P : nat -> Prop) (c : cell) : Prop :=
  List.Forall (okv h0 P) (vals c).

Definition goodAt (h0 : list cell) (P : nat -> Prop) (h : list cell) (l : nat)
  : Prop :=
  forall c, h !! l = Some c -> goodCell h0 P c.

(** A place that may be written: a cell in [P], or a new cell. *)
Definition target (h0 : list cell) (P : nat -> Prop) (l : nat) : Prop :=
  (l < length h0)%nat -> P l.

(** The cells of [h0] outside [P] are as in [h0]; the cells in [P] and the
    new objects are good. *)
Record Inv (h0 : list cell) (P : nat -> Prop) (h : list cell) : Prop := {
  inv_len : (length h0 <= length h)%nat;
  inv_frame : forall l, (l < length h0)%nat -> ~ P l -> h !! l = h0 !! l;
  inv_old : forall l, (l < length h0)%nat -> P l -> goodAt h0 P h l;
  inv_new : forall l fs, (length h0 <= l)%nat -> h !! l = Some (CObj fs) ->
                         goodCell h0 P (CObj fs)
}.

Definition Pres (h0 : list cell) (P : nat -> Prop) (h h' : list cell) : Prop :=
  (length h <= length h')%nat /\
  forall l, (l < length h)%nat -> goodAt h0 P h l -> goodAt h0 P h' l.

Definition okstack (h0 : list cell) (P : nat -> Prop) (stack : list (nat * hval))
  : Prop :=
  List.Forall (fun e => okv h0 P (snd e)) stack.

(** What a call of [baseMerge] keeps. *)
Definition keeps (h0 : list cell) (P : nat -> Prop)
  (f : list cell -> list (nat * hval) -> nat -> nat -> option (list cell))
  : Prop :=
  forall h stack object source h',
    Inv h0 P h -> okstack h0 P stack -> target h0 P object ->
    goodAt h0 P h object -> (object < length h)%nat ->
    f h stack object source = Some h' -> Inv h0 P h' /\ Pres h0 P h h'.

(** What a call of [baseMerge] must do for the loop to get through: return,
    on a source that is a tree of depth [d] apart from [old]. *)
Definition returns (h0 : list cell) (old : nat) (d : nat)
  (f : list cell -> list (nat * hval) -> nat -> nat -> option (list cell))
  : Prop :=
  forall h stack object source,
    apart h0 old (HRef source) d ->
    Inv h0 (reach h0 old) h -> okstack h0 (reach h0 old) stack ->
    target h0 (reach h0 old) object ->
    goodAt h0 (reach h0 old) h object -> (object < length h)%nat ->
    exists h', f h stack object source = Some h'.

End Heap.

(** A heap for [base = {n: {x: 1}}] at 0 and [overlay = {n: {x: 2}}] at 1. *)
Definition nestedHeap : list Heap.cell :=
  [ Heap.CObj [("n", Heap.HRef 2)];
    Heap.CObj [("n", Heap.HRef 3)];
    Heap.CObj [("x", Heap.HNum 1)];
    Heap.CObj [("x", Heap.HNum 2)] ].

(** A heap for two configurations that share nothing, [base] at 0 and
    [overlay] at 1. *)
Definition siteHeap : list Heap.cell :=
  [ Heap.CObj [("name", Heap.HStr "a"); ("tags", Heap.HRef 2);
               ("nest", Heap.HRef 3); ("al", Heap.HRef 4)];
    Heap.CObj [("name", Heap.HStr "b"); ("tags", Heap.HRef 5);
               ("nest", Heap.HRef 6); ("al", Heap.HRef 7);
               ("new", Heap.HRef 8)];
    Heap.CArr [Heap.HStr "x"; Heap.HStr "y"] [];
    Heap.CObj [("p", Heap.HNum 1)];
    Heap.CObj [("length", Heap.HNum 2)];
    Heap.CArr [Heap.HStr "y"; Heap.HStr "z"] [];
    Heap.CObj [("p", Heap.HUndef); ("q", Heap.HNum 2)];
    Heap.CArr [Heap.HStr "x"] [];
    Heap.CObj [("r", Heap.HRef 9)];
    Heap.CArr [Heap.HNum 1; Heap.HNum 1] [] ].

(** * Properties *)

(** ** Property access *)

Section props_facts.
Context {A : Type}.
Implicit Types (o : list (string * A)) (k : string) (v : A).

Lemma lookup_prop_set o k v k' :
  lookup_prop (set o k v) k' =
  if String.eqb k' k then Some v else lookup_prop o k'.
Proof.
  induction o as [|[k0 v0] r IH]; simpl.
  - destruct (String.eqb k' k); reflexivity.
  - destruct (String.eqb_spec k k0) as [->|Hne]; simpl.
    + destruct (String.eqb k' k0); reflexivity.
    + rewrite IH. destruct (String.eqb_spec k' k0) as [->|Hne'];
        [|reflexivity].
      destruct (String.eqb_spec k0 k); [congruence|reflexivity].
Qed.

Lemma has_lookup_prop o k :
  has o k = match lookup_prop o k with Some _ => true | None => false end.
Proof.
  induction o as [|[k0 v0] r IH]; simpl; [reflexivity|].
  destruct (String.eqb k k0); [reflexivity|exact IH].
Qed.

Lemma lookup_prop_None_notin o k :
  lookup_prop o k = None <-> ~ List.In k (map fst o).
Proof.
  induction o as [|[k0 v0] r IH]; simpl; [tauto|].
  destruct (String.eqb_spec k k0) as [->|Hne].
  - split; [discriminate|tauto].
  - rewrite IH. split; [intros H [E|I]; [congruence|tauto]|tauto].
Qed.

Lemma set_absent o k v :
  lookup_prop o k = None -> set o k v = (o ++ [(k, v)])%list.
Proof.
  induction o as [|[k0 v0] r IH]; simpl; [reflexivity|].
  destruct (String.eqb k k0); [discriminate|].
  intros H. rewrite IH; [reflexivity|exact H].
Qed.

Lemma lookup_prop_app o o' k :
  lookup_prop (o ++ o')%list k =
  match lookup_prop o k with Some v => Some v | None => lookup_prop o' k end.
Proof.
  induction o as [|[k0 v0] r IH]; simpl; [reflexivity|].
  destruct (String.eqb k k0); [reflexivity|exact IH].
Qed.
End props_facts.

Lemma get_set (o : fields) k v k' :
  get (set o k v) k' = if String.eqb k' k then v else get o k'.
Proof.
  unfold get. rewrite lookup_prop_set.
  destruct (String.eqb k' k); reflexivity.
Qed.

Lemma get_assignMergeValue (o : fields) k v k' :
  get (assignMergeValue o k v) k' =
  if String.eqb k' k
  then match v with VUndef => get o k | _ => v end
  else get o k'.
Proof.
  destruct v; simpl; try apply get_set.
  rewrite has_lookup_prop.
  destruct (lookup_prop o k) as [w|] eqn:E.
  - destruct (String.eqb_spec k' k) as [->|]; reflexivity.
  - rewrite get_set. destruct (String.eqb_spec k' k) as [->|]; [|reflexivity].
    unfold get. rewrite E. reflexivity.
Qed.

(** ** [mergeValue] unfolded *)

Lemma mergeValue_arr ov xs :
  mergeValue ov (VArr xs) =
  match customizer ov (VArr xs) with
  | Some nv => nv
  | None =>
      VArr (mergeArr
              match ov with
              | VObj ofs =>
                  match arrayLikeLength ofs with
                  | Some n => copyArray ofs n
                  | None => []
                  end
              | _ => []
              end xs)
  end.
Proof.
  simpl. destruct (customizer ov (VArr xs)); [reflexivity|]. f_equal.
  generalize (match ov with
              | VObj ofs =>
                  match arrayLikeLength ofs with
                  | Some n => copyArray ofs n
                  | None => []
                  end
              | _ => []
              end).
  induction xs as [|x r IH]; intros d; [reflexivity|].
  destruct d as [|o dr]; cbn [mergeArr]; rewrite <- IH; reflexivity.
Qed.

Lemma mergeArr_nil xs : mergeArr [] xs = map (mergeValue VUndef) xs.
Proof.
  induction xs as [|x r IH]; [reflexivity|].
  cbn [mergeArr map]. rewrite IH. reflexivity.
Qed.

Lemma mergeValue_obj ov sfs :
  mergeValue ov (VObj sfs) =
  match customizer ov (VObj sfs) with
  | Some nv => nv
  | None => VObj (baseMerge (match ov with VObj ofs => ofs | _ => [] end) sfs)
  end.
Proof.
  simpl. destruct (customizer ov (VObj sfs)); [reflexivity|].
  f_equal. generalize (match ov with VObj ofs => ofs | _ => [] end).
  induction sfs as [|[k sv] r IH]; intros o; [reflexivity|].
  cbn [baseMerge]. rewrite <- IH. reflexivity.
Qed.

Lemma mergeValue_prim ov sv :
  isObject sv = false ->
  mergeValue ov sv =
  match customizer ov sv with Some nv => nv | None => sv end.
Proof.
  destruct sv; simpl; try discriminate; intros _;
    destruct (customizer ov _); reflexivity.
Qed.

(** ** [baseMerge], key by key *)

Lemma existsb_eqb_In k (l : list string) :
  existsb (String.eqb k) l = true <-> List.In k l.
Proof.
  rewrite existsb_exists. split.
  - intros (x & Hx & E). apply String.eqb_eq in E. subst. exact Hx.
  - intros H. exists k. split; [exact H|apply String.eqb_refl].
Qed.

Lemma get_baseMerge_absent (src o : fields) k :
  lookup_prop src k = None -> get (baseMerge o src) k = get o k.
Proof.
  revert o. induction src as [|[k0 sv0] r IH]; intros o; simpl; [reflexivity|].
  destruct (String.eqb_spec k k0) as [->|Hne]; [discriminate|].
  intros H. rewrite IH by exact H. rewrite get_assignMergeValue.
  destruct (String.eqb_spec k k0); [congruence|reflexivity].
Qed.

Lemma get_baseMerge_present (src o : fields) k sv :
  distinct (map fst src) = true ->
  lookup_prop src k = Some sv ->
  get (baseMerge o src) k =
  match mergeValue (get o k) sv with
  | VUndef => get o k
  | nv => nv
  end.
Proof.
  revert o. induction src as [|[k0 sv0] r IH]; intros o; simpl; [discriminate|].
  intros Hd Hl. apply andb_prop in Hd as [Hk0 Hd].
  destruct (String.eqb_spec k k0) as [->|Hne].
  - injection Hl as ->.
    rewrite get_baseMerge_absent.
    + rewrite get_assignMergeValue, String.eqb_refl.
      destruct (mergeValue (get o k0) sv); reflexivity.
    + apply lookup_prop_None_notin. intros HI.
      apply existsb_eqb_In in HI. rewrite HI in Hk0. discriminate.
  - rewrite (IH _ Hd Hl). rewrite get_assignMergeValue.
    destruct (String.eqb_spec k k0); [congruence|reflexivity].
Qed.

(** ** Copying: merging into nothing rebuilds the source *)

Lemma wf_arr xs : wf (VArr xs) = forallb wf xs.
Proof. induction xs as [|x r IH]; [reflexivity|]. simpl in *. rewrite IH. reflexivity. Qed.

Lemma wf_obj fs :
  wf (VObj fs) = distinct (map fst fs) && forallb (fun kv => wf (snd kv)) fs.
Proof.
  simpl. f_equal. induction fs as [|[k x] r IH]; [reflexivity|].
  simpl. rewrite IH. reflexivity.
Qed.

Lemma customizer_not_array ov sv : isArray ov = false -> customizer ov sv = None.
Proof. destruct ov; simpl; [reflexivity..|discriminate|reflexivity]. Qed.

Lemma isObject_not_array ov : isObject ov = false -> isArray ov = false.
Proof. destruct ov; simpl; congruence. Qed.

Lemma assignMergeValue_absent (o : fields) k v :
  lookup_prop o k = None -> assignMergeValue o k v = (o ++ [(k, v)])%list.
Proof.
  intros H. destruct v; simpl; try (apply set_absent; exact H).
  rewrite has_lookup_prop, H. apply set_absent. exact H.
Qed.

Lemma baseMerge_fresh_keys (src o : fields) :
  distinct (map fst src) = true ->
  (forall k, List.In k (map fst src) -> lookup_prop o k = None) ->
  Forall (fun kv => mergeValue VUndef (snd kv) = snd kv) src ->
  baseMerge o src = (o ++ src)%list.
Proof.
  revert o. induction src as [|[k sv] r IH]; intros o Hd Hfresh Hall; simpl.
  - symmetry. apply app_nil_r.
  - simpl in Hd. apply andb_prop in Hd as [Hk Hd].
    apply Forall_cons_1 in Hall as [Hsv Hall]. simpl in Hsv.
    assert (Hok : lookup_prop o k = None) by (apply Hfresh; left; reflexivity).
    unfold get at 1. rewrite Hok, Hsv, assignMergeValue_absent by exact Hok.
    rewrite IH; [rewrite <- app_assoc; reflexivity|exact Hd| |exact Hall].
    intros k' Hin. rewrite lookup_prop_app, (Hfresh k') by (right; exact Hin).
    simpl. destruct (String.eqb_spec k' k) as [->|]; [|reflexivity].
    apply existsb_eqb_In in Hin. rewrite Hin in Hk. discriminate.
Qed.

Lemma mergeValue_copy v :
  wf v = true -> forall ov, isObject ov = false -> mergeValue ov v = v.
Proof.
  induction v as [| |b|n|s|xs IH|fs IH] using value_ind'; intros Hwf ov Hov;
    pose proof (customizer_not_array ov) as Hc;
    specialize (Hc) with (1 := isObject_not_array ov Hov).
  1-5: rewrite mergeValue_prim by reflexivity; rewrite Hc; reflexivity.
  - rewrite mergeValue_arr, Hc. f_equal.
    replace (match ov with
             | VObj ofs =>
                 match arrayLikeLength ofs with
                 | Some n => copyArray ofs n
                 | None => []
                 end
             | _ => []
             end) with (@nil value)
      by (destruct ov; try reflexivity; discriminate).
    rewrite mergeArr_nil.
    rewrite wf_arr in Hwf. induction xs as [|x r IHr]; [reflexivity|].
    simpl in Hwf. apply andb_prop in Hwf as [Hx Hr].
    apply Forall_cons_1 in IH as [IHx IH].
    cbn [map]. rewrite IHx by (exact Hx || reflexivity).
    f_equal. apply IHr; assumption.
  - rewrite mergeValue_obj, Hc. f_equal.
    rewrite wf_obj in Hwf. apply andb_prop in Hwf as [Hd Hall].
    replace (match ov with VObj ofs => ofs | _ => [] end) with (@nil (string * value))
      by (destruct ov; try reflexivity; discriminate).
    rewrite baseMerge_fresh_keys; [reflexivity|exact Hd|reflexivity|].
    clear Hd. induction fs as [|[k x] r IHr]; [constructor|].
    simpl in Hall. apply andb_prop in Hall as [Hx Hr].
    apply Forall_cons_1 in IH as [IHx IH].
    constructor; [apply IHx; [exact Hx|reflexivity]|apply IHr; assumption].
Qed.

(** ** [_.uniq] against the reference deduplication *)

Lemma sameValueZero_eq a b : sameValueZero a b = true -> a = b.
Proof.
  destruct a, b; simpl; try discriminate; try reflexivity; intros H.
  - apply Bool.eqb_prop in H. congruence.
  - apply Z.eqb_eq in H. congruence.
  - apply String.eqb_eq in H. congruence.
Qed.

Lemma sameValueZero_sym a b : sameValueZero a b = sameValueZero b a.
Proof.
  destruct a, b; simpl; try reflexivity.
  - destruct b, b0; reflexivity.
  - apply Z.eqb_sym.
  - apply String.eqb_sym.
Qed.

Lemma filter_filter_and {A} (p q : A -> bool) l :
  List.filter p (List.filter q l) = List.filter (fun y => p y && q y) l.
Proof.
  induction l as [|a r IH]; [reflexivity|]. simpl.
  destruct (q a) eqn:Q; simpl; rewrite ?andb_true_r, ?andb_false_r.
  - destruct (p a); rewrite IH; reflexivity.
  - exact IH.
Qed.

Lemma dedup_filter (p : value -> bool) l :
  (forall a b, sameValueZero a b = true -> p a = p b) ->
  dedup (List.filter p l) = List.filter p (dedup l).
Proof.
  intros Hp. induction l as [|a r IH]; [reflexivity|]. simpl.
  destruct (p a) eqn:Pa; simpl.
  - rewrite IH, !filter_filter_and. f_equal.
    apply List.filter_ext. intros y. apply andb_comm.
  - rewrite IH, filter_filter_and. apply List.filter_ext. intros y.
    destruct (p y) eqn:Py; [|reflexivity]. simpl.
    destruct (sameValueZero a y) eqn:E; [|reflexivity].
    rewrite (Hp _ _ E) in Pa. congruence.
Qed.

Lemma baseUniq_dedup seen l :
  baseUniq seen l =
  dedup (List.filter (fun y => negb (includesWith seen y)) l).
Proof.
  revert seen. induction l as [|x r IH]; intros seen; [reflexivity|]. simpl.
  destruct (includesWith seen x) eqn:E; simpl; [apply IH|].
  f_equal. rewrite IH.
  rewrite <- (dedup_filter (fun y => negb (sameValueZero x y))).
  - f_equal. rewrite filter_filter_and. apply List.filter_ext. intros y.
    unfold includesWith. simpl. rewrite negb_orb, (sameValueZero_sym y x).
    reflexivity.
  - intros a b Hab. apply sameValueZero_eq in Hab. congruence.
Qed.

Lemma uniq_dedup l : uniq l = dedup l.
Proof.
  unfold uniq. rewrite baseUniq_dedup. f_equal.
  induction l as [|x r IH]; [reflexivity|]. simpl. f_equal. exact IH.
Qed.

(** The deduplicated sequence draws its elements from the input, is no
    longer than the input, and holds no value twice. *)
Lemma dedup_In x l : List.In x (dedup l) -> List.In x l.
Proof.
  revert x. induction l as [|a r IH]; intros x; simpl; [tauto|].
  intros [E|H]; [left; exact E|right].
  apply List.filter_In in H as [H _]. apply IH. exact H.
Qed.

Lemma dedup_length l : (List.length (dedup l) <= List.length l)%nat.
Proof.
  induction l as [|a r IH]; simpl; [lia|].
  pose proof (List.filter_length_le (fun y => negb (sameValueZero a y)) (dedup r)).
  lia.
Qed.

Lemma filter_split {A} (p : A -> bool) l l1 x l2 :
  List.filter p l = (l1 ++ x :: l2)%list ->
  exists l1' l2', l = (l1' ++ x :: l2')%list /\ l2 = List.filter p l2'.
Proof.
  revert l1. induction l as [|a r IH]; intros l1; simpl.
  - destruct l1; discriminate.
  - destruct (p a) eqn:Pa.
    + destruct l1 as [|c l1]; simpl; intros E; injection E as -> E.
      * exists [], r. split; [reflexivity|symmetry; exact E].
      * destruct (IH _ E) as (l1' & l2' & -> & ->).
        exists (c :: l1'), l2'. split; reflexivity.
    + intros E. destruct (IH _ E) as (l1' & l2' & -> & ->).
      exists (a :: l1'), l2'. split; reflexivity.
Qed.

Lemma dedup_no_repeat l before x rest y :
  dedup l = (before ++ x :: rest)%list -> List.In y rest ->
  sameValueZero x y = false.
Proof.
  revert before rest. induction l as [|a r IH]; intros before rest; simpl.
  - destruct before; discriminate.
  - destruct before as [|b before]; simpl; intros E Hy; injection E as -> E.
    + rewrite <- E in Hy. apply List.filter_In in Hy as [_ Hy].
      apply negb_true_iff in Hy. exact Hy.
    + destruct (filter_split _ _ _ _ _ E) as (l1' & l2' & E' & ->).
      apply List.filter_In in Hy as [Hy _].
      exact (IH _ _ E' Hy).
Qed.



(** ** The claims about [merge] *)




(** ** [updatePath] *)

Lemma prefix_append (a b : string) : String.prefix a (a ++ b) = true.
Proof.
  induction a as [|c a IH]; [destruct b; reflexivity|].
  change (String c a ++ b) with (String c (a ++ b)). simpl.
  destruct (Ascii.ascii_dec c c); [exact IH|congruence].
Qed.

(** C9. [updatePath(dir)] prepends [dir] and the delimiter exactly when the
    variable does not begin with [dir]; afterwards the variable begins with
    [dir], and a second call changes nothing and returns the same value. *)
Theorem updatePath_idempotent (pf : platform) (env : list (string * string)) (dir : string) :
  let old := lookup_prop env (pathVar pf) in
  let once := updatePath pf env dir in
  (startsWith (default "" old) dir = false ->
     once.2 = Some (dir ++ delimiter pf ++ default "" old)) /\
  (startsWith (default "" old) dir = true -> once = (env, old)) /\
  once.2 = lookup_prop once.1 (pathVar pf) /\
  startsWith (default "" once.2) dir = true /\
  updatePath pf once.1 dir = once.
Proof.
  intros old once. subst once old. unfold updatePath.
  set (p := pathVar pf). set (old := lookup_prop env p).
  destruct (startsWith (default "" old) dir) eqn:G; simpl.
  - repeat split; try discriminate; try exact G.
    fold old. rewrite G. reflexivity.
  - rewrite lookup_prop_set, String.eqb_refl. simpl.
    assert (P : startsWith (join2 dir old (delimiter pf)) dir = true)
      by apply prefix_append.
    repeat split; try discriminate; try exact P.
    rewrite P. simpl. rewrite lookup_prop_set, String.eqb_refl. reflexivity.
Qed.

(** ** [fetch] *)

(** C3 (as amended). With one reading [now] of the clock, [fetch] returns
    true for no record, true for a record with [now > expires], and false
    for a record with [now <= expires]. *)
Theorem fetch_expiry (toNumber : string -> option Z) (fs : fields) (e now : Z) :
  get fs "expires" = VNum e ->
  fetch toNumber VUndef now = Normal true /\
  fetch toNumber (VObj fs) now = Normal (e <? now) /\
  (e < now -> fetch toNumber (VObj fs) now = Normal true) /\
  (now <= e -> fetch toNumber (VObj fs) now = Normal false).
Proof.
  intros He.
  assert (E : fetch toNumber (VObj fs) now = Normal (e <? now)).
  { unfold fetch, ge_number. simpl. rewrite He. simpl.
    rewrite Z.geb_leb, <- Z.ltb_antisym. reflexivity. }
  split; [reflexivity|]. split; [exact E|]. rewrite E. split; intros H.
  - apply Z.ltb_lt in H. rewrite H. reflexivity.
  - apply Z.ltb_ge in H. rewrite H. reflexivity.
Qed.

Lemma fetch_expiry_witness :
  fetch digitsToNumber (VObj [("expires", VNum 1000)]) 1001 = Normal true /\
  fetch digitsToNumber (VObj [("expires", VNum 1000)]) 1000 = Normal false.
Proof.
  destruct (fetch_expiry digitsToNumber [("expires", VNum 1000)] 1000 1001 eq_refl)
    as (_ & _ & Hlt & _).
  destruct (fetch_expiry digitsToNumber [("expires", VNum 1000)] 1000 1000 eq_refl)
    as (_ & _ & _ & Hge).
  split; [apply Hlt; lia|apply Hge; lia].
Defined.

(** C3, as stated, fails at the boundary: with [now = expires] the claim
    asks for true and [fetch] returns false. *)
Lemma fetch_at_expiry :
  (1000 >= 1000) /\
  fetch digitsToNumber (VObj [("expires", VNum 1000)]) 1000 = Normal false.
Proof. split; [lia|reflexivity]. Qed.

(** C10 (as amended). [fetch] never throws.  For a record whose [expires]
    is absent, or converts to NaN, it returns true.  An [expires] that is
    not a number but converts to one is compared as that number: [null] as
    0, false as 0, true as 1, a string as the number it converts to. *)
Theorem fetch_total (toNumber : string -> option Z) (data : value) (now : Z) :
  (exists b, fetch toNumber data now = Normal b) /\
  (forall fs, data = VObj fs -> lookup_prop fs "expires" = None ->
     fetch toNumber data now = Normal true) /\
  (forall fs, data = VObj fs -> ToNumber toNumber (get fs "expires") = None ->
     fetch toNumber data now = Normal true) /\
  (forall fs, data = VObj fs -> get fs "expires" = VNull ->
     fetch toNumber data now = Normal (0 <? now)) /\
  (forall fs b, data = VObj fs -> get fs "expires" = VBool b ->
     fetch toNumber data now = Normal ((if b then 1 else 0) <? now)) /\
  (forall fs s, data = VObj fs -> get fs "expires" = VStr s ->
     fetch toNumber data now
     = Normal (match toNumber s with Some x => x <? now | None => true end)).
Proof.
  assert (G : forall fs, fetch toNumber (VObj fs) now
              = Normal (negb (ge_number toNumber (get fs "expires") now)))
    by reflexivity.
  assert (L : forall x, negb (x >=? now) = (x <? now))
    by (intros x; rewrite Z.geb_leb, <- Z.ltb_antisym; reflexivity).
  split; [|split; [|split; [|split; [|split]]]].
  - unfold fetch. destruct (truthy data) eqn:T; simpl; [|eauto].
    destruct data; simpl in *; try discriminate; eauto.
  - intros fs -> H. rewrite G. unfold get. rewrite H. reflexivity.
  - intros fs -> H. rewrite G. unfold ge_number. rewrite H. reflexivity.
  - intros fs -> H. rewrite G, H. unfold ge_number. cbn [ToNumber].
    apply f_equal, L.
  - intros fs b -> H. rewrite G, H. unfold ge_number.
    destruct b; cbn [ToNumber]; apply f_equal, L.
  - intros fs s -> H. rewrite G, H. unfold ge_number. cbn [ToNumber].
    destruct (toNumber s); [apply f_equal, L|reflexivity].
Qed.

(** C10, as stated, fails: an [expires] that is not a number but converts
    to one is compared like a number. *)
Lemma fetch_numeric_string :
  fetch digitsToNumber (VObj [("expires", VStr "9999999999999")]) 1700000000000
  = Normal false.
Proof. vm_compute. reflexivity. Qed.

Lemma fetch_total_witness :
  fetch digitsToNumber (VObj [("version", VStr "3.0.0")]) 1700000000000
  = Normal true.
Proof.
  destruct (fetch_total digitsToNumber (VObj [("version", VStr "3.0.0")])
              1700000000000) as (_ & Habsent & _).
  exact (Habsent [("version", VStr "3.0.0")] eq_refl eq_refl).
Defined.

Lemma updatePath_idempotent_witness :
  (updatePath linux [("PATH", "/usr/bin")] "/x/bin").2 = Some "/x/bin:/usr/bin" /\
  updatePath linux (updatePath linux [("PATH", "/usr/bin")] "/x/bin").1 "/x/bin"
  = updatePath linux [("PATH", "/usr/bin")] "/x/bin".
Proof.
  destruct (updatePath_idempotent linux [("PATH", "/usr/bin")] "/x/bin")
    as (Hpre & _ & _ & _ & Htwice).
  split; [exact (Hpre eq_refl)|exact Htwice].
Defined.

(** ** [refresh] *)

Lemma prefix_head_ne (a b : ascii) (s t : string) :
  a <> b -> String.prefix (String a s) (String b t) = false.
Proof.
  intros H.
  change (String.prefix (String a s) (String b t))
    with (match Ascii.ascii_dec a b with
          | left _ => String.prefix s t
          | right _ => false
          end).
  destruct (Ascii.ascii_dec a b); [contradiction|reflexivity].
Qed.

Lemma trimStart_v (s : string) :
  exists n, s = vs n ++ trimStart s "v" /\
            startsWith (trimStart s "v") "v" = false.
Proof.
  induction s as [|c r (n & Hn & Hp)].
  - exists O. split; reflexivity.
  - cbn [trimStart charIn]. destruct (Ascii.eqb_spec c "v") as [->|Hc].
    + exists (S n). split; [|exact Hp].
      change (vs (S n) ++ trimStart r "v")
        with (String "v" (vs n ++ trimStart r "v")).
      rewrite <- Hn. reflexivity.
    + exists O. split; [reflexivity|].
      unfold startsWith. apply prefix_head_ne. congruence.
Qed.

Lemma eligible_passedOver (x : value) :
  passedOver x -> eligible x = Normal false.
Proof.
  intros (Hn & Hu & Hf). destruct x as [| |b|n|s|xs|efs]; try reflexivity;
    try congruence.
  specialize (Hf efs eq_refl). unfold bothFlagsFalse in Hf.
  unfold eligible, member. cbn [bind].
  destruct (get efs "draft") as [| |[]| | | |]; try reflexivity.
  destruct (get efs "prerelease") as [| |[]| | | |]; try reflexivity.
  exfalso. apply Hf. split; reflexivity.
Qed.

Lemma eligible_bothFlagsFalse (efs : fields) :
  bothFlagsFalse efs -> eligible (VObj efs) = Normal true.
Proof.
  intros [Hd Hp]. unfold eligible, member. cbn [bind]. rewrite Hd, Hp.
  reflexivity.
Qed.

Lemma findFirst_passedOver (before rest : list value) :
  List.Forall passedOver before ->
  findFirst (before ++ rest) = findFirst rest.
Proof.
  induction 1 as [|x r Hx _ IH]; [reflexivity|].
  cbn [app findFirst]. rewrite (eligible_passedOver x Hx). exact IH.
Qed.

Lemma findFirst_none (listing : list value) :
  List.Forall passedOver listing -> findFirst listing = Normal VUndef.
Proof.
  intros H. rewrite <- (app_nil_r listing). rewrite findFirst_passedOver by exact H.
  reflexivity.
Qed.

Lemma findFirst_found (before after : list value) (efs : fields) :
  List.Forall passedOver before -> bothFlagsFalse efs ->
  findFirst (before ++ VObj efs :: after) = Normal (VObj efs).
Proof.
  intros Hb Hs. rewrite findFirst_passedOver by exact Hb.
  cbn [findFirst]. rewrite (eligible_bothFlagsFalse efs Hs). reflexivity.
Qed.

Lemma findFirst_bad (before after : list value) (bad : value) :
  List.Forall passedOver before -> bad = VNull \/ bad = VUndef ->
  exists e, findFirst (before ++ bad :: after) = Throws e.
Proof.
  intros Hb Hbad. rewrite findFirst_passedOver by exact Hb.
  destruct Hbad as [-> | ->]; eexists; reflexivity.
Qed.

Lemma refresh_listing (rfs : fields) (listing : list value)
      (currentVersion : string) (now : Z) :
  get rfs "data" = VArr listing ->
  refresh (Normal (VObj rfs)) currentVersion now =
  catch (run found := findFirst listing in
         Normal {| version :=
                     trimStart (toString (lodash_get found "tag_name"
                                            (VStr currentVersion))) "v";
                   url := lodash_get found "html_url" (VStr "");
                   expires := now + day |})
        (onFailure currentVersion now).
Proof.
  intros H. unfold refresh, onReleases. cbn [bind].
  unfold lodash_get at 1. rewrite H. reflexivity.
Qed.

Lemma stripped_v (s : string) :
  exists n, s = vs n ++ trimStart s "v" /\ startsWith (trimStart s "v") "v" = false.
Proof. exact (trimStart_v s). Qed.

(** C4 (as amended). Whatever the remote call does, [refresh] does not
    raise, and the record it returns expires at [now + 86400000].  The
    record is the current version without its leading v's and an empty url
    when the call fails, when the answer carries no listing, when no entry
    of the listing has both flags false, and when a [null] or [undefined]
    entry comes before any such entry.  A malformed answer with an entry
    whose two flags are false is not a failure: that entry is taken as the
    release, its [html_url] as the url unless that is [undefined], its
    [tag_name] as the version: a string without its leading v's, the
    current version for [undefined], the empty string for [null]. *)
Theorem refresh_never_raises (releases : completion value) (currentVersion : string) (now : Z) :
  (exists r, refresh releases currentVersion now = Normal r /\
             expires r = now + 86400000) /\
  (forall e data rfs before bad after listing,
     releases = Throws e \/
     (releases = Normal data /\
      forall fs, data = VObj fs -> lookup_prop fs "data" = None) \/
     (releases = Normal (VObj rfs) /\ get rfs "data" = VArr listing /\
      List.Forall passedOver listing) \/
     (releases = Normal (VObj rfs) /\
      get rfs "data" = VArr (before ++ bad :: after) /\
      List.Forall passedOver before /\ (bad = VNull \/ bad = VUndef)) ->
     exists r n,
       refresh releases currentVersion now = Normal r /\
       currentVersion = vs n ++ version r /\
       startsWith (version r) "v" = false /\
       url r = VStr "" /\
       expires r = now + 86400000) /\
  (forall rfs before efs after,
     releases = Normal (VObj rfs) ->
     get rfs "data" = VArr (before ++ VObj efs :: after) ->
     List.Forall passedOver before ->
     bothFlagsFalse efs ->
     exists r,
       refresh releases currentVersion now = Normal r /\
       url r = match get efs "html_url" with
               | VUndef => VStr ""
               | u => u
               end /\
       (forall t, get efs "tag_name" = VStr t ->
          exists n, t = vs n ++ version r /\ startsWith (version r) "v" = false) /\
       (get efs "tag_name" = VUndef ->
          exists n, currentVersion = vs n ++ version r /\
                    startsWith (version r) "v" = false) /\
       (get efs "tag_name" = VNull -> version r = "")).
Proof.
  split; [|split].
  - unfold refresh. destruct releases as [data|e]; simpl.
    + destruct (onReleases currentVersion now data) as [r|e'] eqn:E; simpl.
      * exists r. split; [reflexivity|].
        unfold onReleases in E.
        destruct (find _); simpl in E; [|discriminate].
        injection E as <-. reflexivity.
      * eexists. split; reflexivity.
    + eexists. split; reflexivity.
  - intros e data rfs before bad after listing H.
    destruct (stripped_v currentVersion) as (n & Hn & Hp).
    exists {| version := trimStart currentVersion "v"; url := VStr "";
              expires := now + day |}, n.
    split; [|repeat split; assumption].
    destruct H as [->|[[-> Hno]|[(-> & Hl & Hall)|(-> & Hl & Hb & Hbad)]]].
    + reflexivity.
    + assert (G : lodash_get data "data" (VArr []) = VArr []).
      { destruct data as [| |b|m|s|xs|fs]; try reflexivity.
        unfold lodash_get, get. rewrite (Hno fs eq_refl). reflexivity. }
      unfold refresh, onReleases. cbn [bind]. rewrite G. reflexivity.
    + rewrite (refresh_listing _ _ _ _ Hl), (findFirst_none _ Hall). reflexivity.
    + rewrite (refresh_listing _ _ _ _ Hl).
      destruct (findFirst_bad before after bad Hb Hbad) as (e' & ->). reflexivity.
  - intros rfs before efs after -> Hl Hb Hs.
    rewrite (refresh_listing _ _ _ _ Hl), (findFirst_found _ _ _ Hb Hs).
    cbn [bind catch]. eexists. split; [reflexivity|]. cbn [url version].
    split; [|split; [|split]].
    + unfold lodash_get. destruct (get efs "html_url"); reflexivity.
    + intros t Ht. unfold lodash_get. rewrite Ht. exact (stripped_v t).
    + intros Ht. unfold lodash_get. rewrite Ht. exact (stripped_v currentVersion).
    + intros Ht. unfold lodash_get. rewrite Ht. reflexivity.
Qed.

Lemma refresh_never_raises_witness :
  exists r n,
    refresh (Throws (RemoteError "ETIMEDOUT")) "v3.0.0" 1700000000000 = Normal r /\
    "v3.0.0" = vs n ++ version r /\
    startsWith (version r) "v" = false /\
    url r = VStr "" /\
    expires r = 1700000000000 + 86400000.
Proof.
  destruct (refresh_never_raises (Throws (RemoteError "ETIMEDOUT")) "v3.0.0"
              1700000000000) as (_ & Hfail & _).
  exact (Hfail (RemoteError "ETIMEDOUT") VUndef [] [] VNull [] []
               (or_introl eq_refl)).
Defined.

(** C4, as stated, fails: a malformed answer on which the handler does not
    throw is not answered with the fallback record. *)
Lemma refresh_malformed_release :
  refresh
    (Normal (VObj [("data",
                    VArr [VObj [("tag_name", VNull); ("html_url", VNull);
                                ("draft", VBool false);
                                ("prerelease", VBool false)]])]))
    "v3.0.0" 1000
  = Normal {| version := ""; url := VNull; expires := 1000 + 86400000 |} /\
  {| version := ""; url := VNull; expires := 1000 + 86400000 |}
  <> {| version := "3.0.0"; url := VStr ""; expires := 1000 + 86400000 |}.
Proof. split; [reflexivity|discriminate]. Qed.

Lemma findFirst_typed (xs : list value) (listing : list release) :
  List.Forall2 (fun x r => exists efs, x = VObj efs /\ isReleaseOf efs r)
               xs listing ->
  match List.find isEligible listing with
  | Some r => exists efs, findFirst xs = Normal (VObj efs) /\ isReleaseOf efs r
  | None => findFirst xs = Normal VUndef
  end.
Proof.
  induction 1 as [|x r xs' l' (efs & -> & Hr) _ IH]; [reflexivity|].
  cbn [List.find findFirst].
  assert (E : eligible (VObj efs) = Normal (isEligible r)).
  { destruct Hr as (_ & _ & Hd & Hp). unfold eligible, member, isEligible.
    cbn [bind]. rewrite Hd, Hp.
    destruct (draft r), (prerelease r); reflexivity. }
  rewrite E. cbn [bind]. destruct (isEligible r); [|exact IH].
  exists efs. split; [reflexivity|exact Hr].
Qed.

(** C5. For an answer whose [data] is a listing of releases, [refresh]
    takes the first entry that is neither a draft nor a pre-release: the
    version is its tag without the leading v's, the url its web url, and
    the record expires at [now + 86400000]; with no such entry the version
    is the current version without its leading v's and the url is empty. *)
Theorem refresh_first_eligible (rfs : fields) (xs : list value)
        (listing : list release) (currentVersion : string) (now : Z) :
  get rfs "data" = VArr xs ->
  List.Forall2 (fun x r => exists efs, x = VObj efs /\ isReleaseOf efs r)
               xs listing ->
  exists rec n,
    refresh (Normal (VObj rfs)) currentVersion now = Normal rec /\
    expires rec = now + 86400000 /\
    startsWith (version rec) "v" = false /\
    match List.find isEligible listing with
    | Some r => tag_name r = vs n ++ version rec /\ url rec = VStr (html_url r)
    | None => currentVersion = vs n ++ version rec /\ url rec = VStr ""
    end.
Proof.
  intros Hl Ht. rewrite (refresh_listing _ _ _ _ Hl).
  pose proof (findFirst_typed xs listing Ht) as F.
  destruct (List.find isEligible listing) as [r|].
  - destruct F as (efs & -> & Htag & Hurl & _). cbn [bind catch].
    destruct (stripped_v (tag_name r)) as (n & Hn & Hp).
    eexists. exists n. split; [reflexivity|]. cbn [expires version url].
    unfold lodash_get. rewrite Htag, Hurl.
    split; [reflexivity|]. split; [exact Hp|]. split; [exact Hn|reflexivity].
  - rewrite F. cbn [bind catch].
    destruct (stripped_v currentVersion) as (n & Hn & Hp).
    eexists. exists n. split; [reflexivity|]. cbn [expires version url].
    split; [reflexivity|]. split; [exact Hp|]. split; [exact Hn|reflexivity].
Qed.

Lemma refresh_first_eligible_witness :
  exists rec n,
    refresh
      (Normal (VObj [("meta", VObj []);
                     ("data",
                      VArr [VObj [("id", VNum 7); ("tag_name", VStr "v3.2.0-rc.1");
                                  ("html_url", VStr "https://example.org/rc");
                                  ("draft", VBool false);
                                  ("prerelease", VBool true)];
                            VObj [("id", VNum 6); ("tag_name", VStr "v3.1.0");
                                  ("html_url", VStr "https://example.org/3.1.0");
                                  ("draft", VBool false);
                                  ("prerelease", VBool false)]])]))
      "v3.0.0" 1000 = Normal rec /\
    expires rec = 1000 + 86400000 /\
    startsWith (version rec) "v" = false /\
    "v3.1.0" = vs n ++ version rec /\
    url rec = VStr "https://example.org/3.1.0".
Proof.
  refine (refresh_first_eligible
            [("meta", VObj []);
             ("data",
              VArr [VObj [("id", VNum 7); ("tag_name", VStr "v3.2.0-rc.1");
                          ("html_url", VStr "https://example.org/rc");
                          ("draft", VBool false);
                          ("prerelease", VBool true)];
                    VObj [("id", VNum 6); ("tag_name", VStr "v3.1.0");
                          ("html_url", VStr "https://example.org/3.1.0");
                          ("draft", VBool false);
                          ("prerelease", VBool false)]])]
            [VObj [("id", VNum 7); ("tag_name", VStr "v3.2.0-rc.1");
                   ("html_url", VStr "https://example.org/rc");
                   ("draft", VBool false);
                   ("prerelease", VBool true)];
             VObj [("id", VNum 6); ("tag_name", VStr "v3.1.0");
                   ("html_url", VStr "https://example.org/3.1.0");
                   ("draft", VBool false);
                   ("prerelease", VBool false)]]
            [ {| tag_name := "v3.2.0-rc.1"; html_url := "https://example.org/rc";
                 draft := false; prerelease := true |};
              {| tag_name := "v3.1.0"; html_url := "https://example.org/3.1.0";
                 draft := false; prerelease := false |} ]
            "v3.0.0" 1000 eq_refl _).
  repeat constructor; eexists; (split; [reflexivity|]); repeat split.
Defined.

(** ** [loadFiles] *)

Section loadFiles_facts.
Variable fs : string -> option (completion string).
Variable safeLoad : string -> completion value.

Lemma loadFiles_from_app conf (before after : list string) :
  loadFiles_from fs safeLoad conf (before ++ after) =
  run c := loadFiles_from fs safeLoad conf before in
  loadFiles_from fs safeLoad c after.
Proof.
  revert conf. induction before as [|p l IH]; intros conf; [reflexivity|].
  cbn [app loadFiles_from]. destruct (existsSync fs p); [|apply IH].
  destruct (readFileSync fs p) as [buf|e]; [|reflexivity]. cbn [bind].
  destruct (safeLoad buf) as [doc|e]; [|reflexivity]. cbn [bind]. apply IH.
Qed.

Lemma loadFiles_from_missing conf (files : list string) :
  (forall p, List.In p files -> fs p = None) ->
  loadFiles_from fs safeLoad conf files = Normal conf.
Proof.
  induction files as [|p l IH]; intros H; [reflexivity|].
  cbn [loadFiles_from]. unfold existsSync.
  rewrite (H p) by (left; reflexivity). apply IH.
  intros q Hq. apply H. right. exact Hq.
Qed.


End loadFiles_facts.


(** ** [loadEnvs] *)

Lemma prefix_nil (s : string) : String.prefix "" s = true.
Proof. destruct s; reflexivity. Qed.

Lemma prefix_split (t s : string) :
  String.prefix t s = true <-> exists b, s = t ++ b.
Proof.
  split.
  - revert s. induction t as [|c t IH]; intros s H; [exists s; reflexivity|].
    destruct s as [|d s]; [discriminate|].
    destruct (Ascii.ascii_dec c d) as [->|Hne].
    + change (String.prefix (String d t) (String d s))
        with (match Ascii.ascii_dec d d with
              | left _ => String.prefix t s
              | right _ => false
              end) in H.
      destruct (Ascii.ascii_dec d d); [|congruence].
      destruct (IH _ H) as (b & ->). exists b. reflexivity.
    + rewrite prefix_head_ne in H by exact Hne. discriminate.
  - intros (b & ->). apply prefix_append.
Qed.

(** [_.includes] on strings is substring containment. *)
Lemma includes_substring (s t : string) :
  includes s t = true <-> exists a b, s = a ++ t ++ b.
Proof.
  split.
  - induction s as [|c s IH]; cbn [includes].
    + destruct (String.prefix t "") eqn:P; [|intros H; discriminate H]. intros _.
      destruct (proj1 (prefix_split _ _) P) as (b & Hb). exists "", b. exact Hb.
    + destruct (String.prefix t (String c s)) eqn:P.
      * intros _. destruct (proj1 (prefix_split _ _) P) as (b & Hb).
        exists "", b. exact Hb.
      * intros H. destruct (IH H) as (a & b & ->).
        exists (String c a), b. reflexivity.
  - intros (a & b & ->). induction a as [|c a IH].
    + change ("" ++ t ++ b) with (t ++ b).
      pose proof (prefix_append t b) as P.
      destruct (t ++ b); cbn [includes]; rewrite P; reflexivity.
    + change (String c a ++ t ++ b) with (String c (a ++ t ++ b)).
      cbn [includes]. rewrite IH.
      destruct (String.prefix t (String c (a ++ t ++ b))); reflexivity.
Qed.

Lemma In_set {A} (o : list (string * A)) k v k' v' :
  List.In (k', v') (set o k v) -> (k' = k /\ v' = v) \/ List.In (k', v') o.
Proof.
  induction o as [|[k0 v0] r IH]; simpl.
  - intros [E|[]]. left. split; congruence.
  - destruct (String.eqb_spec k k0) as [->|Hne]; simpl.
    + intros [E|H]; [left; split; congruence|right; right; exact H].
    + intros [E|H]; [right; left; exact E|].
      destruct (IH H) as [?|?]; [left; assumption|right; right; assumption].
Qed.

(** What [loadEnvs] does get right: every entry of the result comes from a
    variable whose name contains [prefix], carries that variable's value
    unchanged, and has the key [camelCase (trimStart name prefix)]. *)
Lemma loadEnvs_entries (camelCase : string -> string)
      (env : list (string * string)) (prefix k v : string) :
  List.In (k, v) (loadEnvs camelCase env prefix) ->
  exists name, List.In (name, v) env /\ includes name prefix = true /\
               k = camelCase (trimStart name prefix).
Proof.
  unfold loadEnvs.
  assert (G : forall acc,
             List.In (k, v) (loadEnvs_from camelCase acc prefix env) ->
             List.In (k, v) acc \/
             exists name, List.In (name, v) env /\ includes name prefix = true /\
                          k = camelCase (trimStart name prefix)).
  { induction env as [|[name val] r IH]; intros acc H; [left; exact H|].
    cbn [loadEnvs_from] in H. destruct (includes name prefix) eqn:I.
    - destruct (IH _ H) as [Hacc|(n & Hn & Hi & Hk)].
      + apply In_set in Hacc as [[-> ->]|Hacc]; [|left; exact Hacc].
        right. exists name. split; [left; reflexivity|]. split; [exact I|reflexivity].
      + right. exists n. split; [right; exact Hn|]. split; assumption.
    - destruct (IH _ H) as [Hacc|(n & Hn & Hi & Hk)]; [left; exact Hacc|].
      right. exists n. split; [right; exact Hn|]. split; assumption. }
  intros H. destruct (G [] H) as [[]|Hex]. exact Hex.
Qed.

(** C2, at a failing input.  With the prefix LANDO_ the variable LANDO_ADMIN
    should give the key made from ADMIN.  [_.trimStart] takes its second
    argument as a set of characters, so the A and the D go as well and the
    key is made from MIN. *)
Theorem loadEnvs_trims_characters :
  trimStart "LANDO_ADMIN" "LANDO_" = "MIN" /\
  loadEnvs lowercase [("LANDO_ADMIN", "yes"); ("HOME", "/root")] "LANDO_"
  = [("min", "yes")] /\
  lookup_prop (loadEnvs lowercase [("LANDO_ADMIN", "yes"); ("HOME", "/root")] "LANDO_")
              "admin" = None.
Proof. repeat split. Qed.

(** ** [updateAvailable] *)

Lemma string_compare_refl (s : string) : String.compare s s = Eq.
Proof.
  pose proof (String.compare_antisym s s) as H.
  destruct (String.compare s s); simpl in H; congruence.
Qed.

Lemma compareIdent_Eq (x y : Semver.ident) :
  Semver.compareIdent x y = Eq <-> x = y.
Proof.
  destruct x as [x|s], y as [y|u]; simpl.
  - rewrite N.compare_eq_iff. split; congruence.
  - split; discriminate.
  - split; discriminate.
  - split.
    + intros H. apply String.compare_eq_iff in H. congruence.
    + intros [= ->]. apply string_compare_refl.
Qed.

Lemma ltb_compare (s u : string) :
  String.ltb s u = true <-> String.compare s u = Lt.
Proof.
  unfold String.ltb. destruct (String.compare s u); split; congruence.
Qed.

Lemma compareIdent_Lt (x y : Semver.ident) :
  Semver.compareIdent x y = Lt <-> Semver.identLt x y.
Proof.
  destruct x as [x|s], y as [y|u]; simpl.
  - rewrite N.compare_lt_iff. split; [constructor; assumption|].
    inversion 1; assumption.
  - split; [constructor|reflexivity].
  - split; [discriminate|inversion 1].
  - rewrite <- ltb_compare. split; [constructor; assumption|].
    inversion 1; assumption.
Qed.

Lemma identLt_irrefl (x : Semver.ident) : ~ Semver.identLt x x.
Proof.
  intros H. apply compareIdent_Lt in H.
  assert (E : Semver.compareIdent x x = Eq) by (apply compareIdent_Eq; reflexivity).
  congruence.
Qed.

Lemma compareIdents_Lt (p q : list Semver.ident) :
  Semver.compareIdents p q = Lt <-> Semver.identsLt p q.
Proof.
  revert q. induction p as [|x xs IH]; intros [|y ys]; simpl.
  - split; [discriminate|inversion 1].
  - split; [constructor|reflexivity].
  - split; [discriminate|inversion 1].
  - destruct (Semver.compareIdent x y) eqn:C.
    + apply compareIdent_Eq in C as ->. rewrite IH. split.
      * apply Semver.lt_later.
      * inversion 1 as [|? ? ? ? Hlt|]; subst; [|assumption].
        exfalso. exact (identLt_irrefl _ Hlt).
    + split; [intros _; apply Semver.lt_here, compareIdent_Lt, C|reflexivity].
    + split; [discriminate|]. inversion 1 as [|? ? ? ? Hlt|]; subst.
      * apply compareIdent_Lt in Hlt. congruence.
      * assert (E : Semver.compareIdent y y = Eq)
          by (apply compareIdent_Eq; reflexivity).
        congruence.
Qed.

Lemma comparePre_Lt (p q : list Semver.ident) :
  Semver.comparePre p q = Lt <-> Semver.preLt p q.
Proof.
  unfold Semver.preLt. destruct p as [|x xs], q as [|y ys]; simpl.
  - split; [discriminate|intros [H _]; congruence].
  - split; [discriminate|intros [H _]; congruence].
  - split; [intros _; split; [discriminate|left; reflexivity]|reflexivity].
  - change (match Semver.compareIdent x y with
            | Eq => Semver.compareIdents xs ys
            | c => c
            end) with (Semver.compareIdents (x :: xs) (y :: ys)).
    rewrite compareIdents_Lt. split.
    + intros H. split; [discriminate|right; exact H].
    + intros [_ [H|H]]; [discriminate|exact H].
Qed.

Lemma thenCompare_Lt (x y : N) (d : comparison) :
  Semver.thenCompare (x ?= y)%N d = Lt <-> (x < y)%N \/ (x = y /\ d = Lt).
Proof.
  unfold Semver.thenCompare. destruct (x ?= y)%N eqn:C.
  - apply N.compare_eq_iff in C. subst. split.
    + intros H. right. split; [reflexivity|exact H].
    + intros [H|[_ H]]; [lia|exact H].
  - apply N.compare_lt_iff in C. split; [left; exact C|reflexivity].
  - apply N.compare_gt_iff in C. split; [discriminate|].
    intros [H|[H _]]; lia.
Qed.

Lemma compare_Lt (a b : Semver.t) :
  Semver.compare a b = Lt <-> Semver.precedes a b.
Proof.
  unfold Semver.compare, Semver.precedes.
  rewrite !thenCompare_Lt, comparePre_Lt. reflexivity.
Qed.

(** C8. For two version strings, [updateAvailable(currentVersion,
    candidateVersion)] is true exactly when the current version comes before
    the candidate in semantic-version precedence; it is true for 3.0.0
    against 3.0.1, false for 3.0.1 against 3.0.0 and for 3.0.0 against
    itself. *)
Theorem updateAvailable_precedes (currentVersion candidateVersion : string) (a b : Semver.t) :
  Semver.parse currentVersion = Some a ->
  Semver.parse candidateVersion = Some b ->
  (exists r, updateAvailable currentVersion candidateVersion = Some r) /\
  (updateAvailable currentVersion candidateVersion = Some true <->
   Semver.precedes a b) /\
  updateAvailable "3.0.0" "3.0.1" = Some true /\
  updateAvailable "3.0.1" "3.0.0" = Some false /\
  updateAvailable "3.0.0" "3.0.0" = Some false.
Proof.
  intros Ha Hb. unfold updateAvailable at 1 2, Semver.lt. rewrite Ha, Hb.
  split; [eauto|]. split; [|repeat split; vm_compute; reflexivity].
  rewrite <- compare_Lt.
  destruct (Semver.compare a b); split; congruence.
Qed.

Lemma updateAvailable_precedes_witness :
  updateAvailable "3.0.0-beta.2" "3.0.0" = Some true <->
  Semver.precedes
    {| Semver.major := 3; Semver.minor := 0; Semver.patch := 0;
       Semver.prerelease := [Semver.Alnum "beta"; Semver.Numeric 2] |}
    {| Semver.major := 3; Semver.minor := 0; Semver.patch := 0;
       Semver.prerelease := [] |}.
Proof.
  destruct (updateAvailable_precedes "3.0.0-beta.2" "3.0.0" _ _ eq_refl eq_refl)
    as (_ & H & _).
  exact H.
Defined.

(** * Further properties *)

(** ** [stripEnv] *)

Lemma del_filter {A} (o : list (string * A)) k :
  del o k = List.filter (fun kv => negb (String.eqb k (fst kv))) o.
Proof.
  induction o as [|[k0 v0] r IH]; [reflexivity|]. simpl.
  destruct (String.eqb k k0); simpl; rewrite IH; reflexivity.
Qed.

Lemma stripEnv_each_filter names prefix (env : list (string * string)) :
  stripEnv_each names prefix env =
  List.filter (fun kv => negb (includes (fst kv) prefix
                               && existsb (String.eqb (fst kv)) names)) env.
Proof.
  revert env. induction names as [|key rest IH]; intros env; simpl.
  - induction env as [|kv r IHr]; [reflexivity|]. simpl.
    rewrite andb_false_r. simpl. f_equal. exact IHr.
  - rewrite IH. destruct (includes key prefix) eqn:I.
    + rewrite del_filter, filter_filter_and. apply List.filter_ext.
      intros [k v]. simpl. rewrite (String.eqb_sym key k).
      destruct (String.eqb_spec k key) as [->|Hne]; simpl.
      * rewrite I. simpl. apply andb_false_r.
      * apply andb_true_r.
    + apply List.filter_ext. intros [k v]. simpl.
      destruct (String.eqb_spec k key) as [->|Hne]; simpl; [|reflexivity].
      rewrite I. reflexivity.
Qed.

Lemma lookup_prop_filter_key {A} (p : string -> bool) (o : list (string * A)) k :
  lookup_prop (List.filter (fun kv => p (fst kv)) o) k =
  if p k then lookup_prop o k else None.
Proof.
  induction o as [|[k0 v0] r IH]; simpl; [destruct (p k); reflexivity|].
  destruct (p k0) eqn:P0; simpl.
  - destruct (String.eqb_spec k k0) as [->|Hne]; [rewrite P0; reflexivity|exact IH].
  - rewrite IH. destruct (String.eqb_spec k k0) as [->|Hne]; [|reflexivity].
    rewrite P0. reflexivity.
Qed.

(** [stripEnv(prefix)] removes exactly the variables whose name contains
    [prefix]: what is left is the environment filtered by name, in its
    order; a name with [prefix] in it is gone, any other name reads as
    before; and a second call changes nothing. *)
Theorem stripEnv_removes_matching (env : list (string * string)) (prefix : string) :
  stripEnv env prefix
  = List.filter (fun kv => negb (includes (fst kv) prefix)) env /\
  (forall k, lookup_prop (stripEnv env prefix) k
             = if includes k prefix then None else lookup_prop env k) /\
  stripEnv (stripEnv env prefix) prefix = stripEnv env prefix.
Proof.
  assert (E : forall e, stripEnv e prefix
              = List.filter (fun kv => negb (includes (fst kv) prefix)) e).
  { intros e. unfold stripEnv. rewrite stripEnv_each_filter.
    apply List.filter_ext_in. intros [k v] Hin. simpl.
    assert (X : existsb (String.eqb k) (map fst e) = true).
    { apply existsb_eqb_In. apply (List.in_map fst) in Hin. exact Hin. }
    rewrite X, andb_true_r. reflexivity. }
  split; [apply E|]. split.
  - intros k. rewrite E.
    rewrite (lookup_prop_filter_key (fun n => negb (includes n prefix))).
    destruct (includes k prefix); reflexivity.
  - rewrite !E, filter_filter_and. apply List.filter_ext.
    intros kv. apply andb_diag.
Qed.

Lemma loadEnvs_from_none (camelCase : string -> string) acc prefix
      (env : list (string * string)) :
  List.Forall (fun kv => includes (fst kv) prefix = false) env ->
  loadEnvs_from camelCase acc prefix env = acc.
Proof.
  induction 1 as [|[k v] r Hk _ IH]; [reflexivity|].
  simpl in *. rewrite Hk. exact IH.
Qed.

(** After [stripEnv(prefix)], [loadEnvs(prefix)] finds nothing. *)
Theorem loadEnvs_after_stripEnv (camelCase : string -> string)
        (env : list (string * string)) (prefix : string) :
  loadEnvs camelCase (stripEnv env prefix) prefix = [].
Proof.
  unfold loadEnvs. apply loadEnvs_from_none.
  unfold stripEnv. rewrite stripEnv_each_filter.
  apply List.Forall_forall. intros [k v] Hin.
  apply List.filter_In in Hin as [Hin Hp]. simpl in *.
  apply negb_true_iff in Hp. apply andb_false_iff in Hp as [Hp|Hp]; [exact Hp|].
  assert (X : existsb (String.eqb k) (map fst env) = true).
  { apply existsb_eqb_In. apply (List.in_map fst) in Hin. exact Hin. }
  congruence.
Qed.

(** ** [_.trimStart] and [loadEnvs] *)

Lemma append_assoc (a b c : string) : (a ++ b) ++ c = a ++ (b ++ c).
Proof.
  induction a as [|x a IH]; [reflexivity|].
  change (String x ((a ++ b) ++ c) = String x (a ++ b ++ c)). f_equal. exact IH.
Qed.

Lemma charIn_middle (c : ascii) (a b : string) :
  charIn c (a ++ String c b) = true.
Proof.
  induction a as [|x a IH].
  - change (charIn c (String c b) = true). cbn [charIn].
    rewrite Ascii.eqb_refl. reflexivity.
  - change (charIn c (String x (a ++ String c b)) = true). cbn [charIn].
    rewrite IH. destruct (Ascii.eqb c x); reflexivity.
Qed.

Lemma trimStart_through (a b rest : string) :
  trimStart (b ++ rest) (a ++ b) = trimStart rest (a ++ b).
Proof.
  revert a. induction b as [|c b IH]; intros a; [reflexivity|].
  change (String c b ++ rest) with (String c (b ++ rest)). cbn [trimStart].
  rewrite charIn_middle.
  change (String c b) with ("" ++ String c b) at 1 2.
  change (a ++ "" ++ String c b) with (a ++ String c EmptyString ++ b).
  rewrite <- append_assoc. apply IH.
Qed.

(** [_.trimStart(name, prefix)] on a name that begins with [prefix] goes
    on trimming into the remainder: it gives the remainder only if that
    does not begin with a character of [prefix].  Its result never begins
    with a character of the set, and trimming again changes nothing. *)
Theorem trimStart_prefix (prefix rest : string) :
  trimStart (prefix ++ rest) prefix = trimStart rest prefix /\
  (forall c r, rest = String c r -> charIn c prefix = false ->
     trimStart (prefix ++ rest) prefix = rest) /\
  (forall c r, trimStart rest prefix = String c r -> charIn c prefix = false) /\
  trimStart (trimStart rest prefix) prefix = trimStart rest prefix.
Proof.
  assert (H : forall c r, trimStart rest prefix = String c r ->
                          charIn c prefix = false).
  { induction rest as [|x s IH]; intros c r; cbn [trimStart]; [discriminate|].
    destruct (charIn x prefix) eqn:X; [apply IH|].
    intros [= <- <-]. exact X. }
  assert (T : trimStart (prefix ++ rest) prefix = trimStart rest prefix)
    by apply (trimStart_through "" prefix rest).
  split; [exact T|]. split; [|split; [exact H|]].
  - intros c r -> Hc. rewrite T. cbn [trimStart]. rewrite Hc. reflexivity.
  - destruct (trimStart rest prefix) as [|c r] eqn:E; [reflexivity|].
    cbn [trimStart]. rewrite (H c r eq_refl). reflexivity.
Qed.

Lemma trimStart_prefix_witness :
  trimStart ("LANDO_" ++ "ENGINE") "LANDO_" = "ENGINE".
Proof.
  destruct (trimStart_prefix "LANDO_" "ENGINE") as (_ & Hexact & _).
  exact (Hexact "E"%char "NGINE" eq_refl eq_refl).
Defined.

Lemma loadEnvs_from_lookup (camelCase : string -> string) acc prefix
      (env : list (string * string)) k :
  lookup_prop (loadEnvs_from camelCase acc prefix env) k =
  match lookup_prop
          (rev (map (fun kv => (camelCase (trimStart (fst kv) prefix), snd kv))
                    (List.filter (fun kv => includes (fst kv) prefix) env))) k
  with
  | Some v => Some v
  | None => lookup_prop acc k
  end.
Proof.
  revert acc. induction env as [|[name v] r IH]; intros acc; [reflexivity|].
  cbn [loadEnvs_from List.filter fst].
  destruct (includes name prefix) eqn:I; [|apply IH].
  cbn [map rev fst snd]. rewrite IH, lookup_prop_app, lookup_prop_set.
  destruct (lookup_prop (rev _) k); [reflexivity|]. simpl.
  destruct (String.eqb k (camelCase (trimStart name prefix))); reflexivity.
Qed.

(** [loadEnvs(prefix)] holds, under each key, the value of the last variable
    of the environment that is selected and gives that key; a key that no
    selected variable gives is absent. *)
Theorem loadEnvs_last_wins (camelCase : string -> string)
        (env : list (string * string)) (prefix k : string) :
  lookup_prop (loadEnvs camelCase env prefix) k =
  lookup_prop
    (rev (map (fun kv => (camelCase (trimStart (fst kv) prefix), snd kv))
              (List.filter (fun kv => includes (fst kv) prefix) env))) k.
Proof.
  unfold loadEnvs. rewrite loadEnvs_from_lookup.
  destruct (lookup_prop (rev _) k); reflexivity.
Qed.

Lemma filter_all {A} (p : A -> bool) (l : list A) :
  (forall x, p x = true) -> List.filter p l = l.
Proof.
  intros H. induction l as [|a r IH]; [reflexivity|].
  simpl. rewrite H, IH. reflexivity.
Qed.

Lemma trimStart_no_chars (s : string) : trimStart s "" = s.
Proof. destruct s; reflexivity. Qed.

(** The empty prefix is contained in every name: [stripEnv('')] empties the
    environment, and [loadEnvs('')] loads every variable, under the camel
    case of its whole name. *)
Theorem empty_prefix_matches_all (camelCase : string -> string)
        (env : list (string * string)) :
  stripEnv env "" = [] /\
  forall k, lookup_prop (loadEnvs camelCase env "") k
            = lookup_prop (rev (map (fun kv => (camelCase (fst kv), snd kv)) env)) k.
Proof.
  assert (I : forall name, includes name "" = true).
  { intros name. destruct name; cbn [includes]; rewrite prefix_nil; reflexivity. }
  split.
  - unfold stripEnv. rewrite stripEnv_each_filter.
    generalize (List.in_map fst env). generalize (map fst env). intros names Hn.
    induction env as [|[n v] r IH]; [reflexivity|].
    cbn [List.filter fst]. rewrite I.
    assert (X : existsb (String.eqb n) names = true).
    { apply existsb_eqb_In. apply (Hn (n, v)). left. reflexivity. }
    rewrite X. simpl. apply IH. intros x Hx. apply Hn. right. exact Hx.
  - intros k. unfold loadEnvs. rewrite loadEnvs_from_lookup.
    rewrite filter_all by (intros [n v]; apply I).
    rewrite (List.map_ext _ (fun kv : string * string => (camelCase (fst kv), snd kv)))
      by (intros [n v]; simpl; rewrite trimStart_no_chars; reflexivity).
    destruct (lookup_prop (rev _) k); reflexivity.
Qed.

(** ** [updatePath], [getSysConfRoot] and [defaults] *)

Lemma append_nil_r (s : string) : s ++ "" = s.
Proof.
  induction s as [|c s IH]; [reflexivity|].
  change (String c (s ++ "") = String c s). f_equal. exact IH.
Qed.

(** [updatePath(dir)] touches no variable but the search path, and never
    unsets the search path. *)
Theorem updatePath_frame (pf : platform) (env : list (string * string)) (dir k : string) :
  (k <> pathVar pf ->
   lookup_prop (updatePath pf env dir).1 k = lookup_prop env k) /\
  (has env k = true -> has (updatePath pf env dir).1 k = true).
Proof.
  unfold updatePath. cbn [fst].
  destruct (negb (startsWith (default "" (lookup_prop env (pathVar pf))) dir));
    [|split; intros; [reflexivity|assumption]].
  split.
  - intros Hk. rewrite lookup_prop_set.
    destruct (String.eqb_spec k (pathVar pf)); [contradiction|reflexivity].
  - rewrite !has_lookup_prop, lookup_prop_set.
    destruct (String.eqb k (pathVar pf)); [reflexivity|intros H; exact H].
Qed.

Lemma updatePath_frame_witness :
  lookup_prop (updatePath linux [("HOME", "/root"); ("PATH", "/usr/bin")] "/x/bin").1
              "HOME" = Some "/root".
Proof.
  destruct (updatePath_frame linux [("HOME", "/root"); ("PATH", "/usr/bin")]
              "/x/bin" "HOME") as (Hother & _).
  exact (Hother ltac:(discriminate)).
Defined.

(** [updatePath(dir)] with the search path unset sets it to [dir] followed
    by the delimiter, so the list ends in an empty entry; with the empty
    string for [dir] it changes nothing, whatever the environment. *)
Theorem updatePath_unset_or_empty (pf : platform) (env : list (string * string)) (dir : string) :
  (lookup_prop env (pathVar pf) = None -> dir <> "" ->
   updatePath pf env dir
   = ((env ++ [(pathVar pf, (dir ++ delimiter pf)%string)])%list,
      Some (dir ++ delimiter pf))) /\
  updatePath pf env "" = (env, lookup_prop env (pathVar pf)).
Proof.
  split.
  - intros Hnone Hdir. unfold updatePath. rewrite Hnone. cbn [default].
    assert (S : startsWith "" dir = false)
      by (destruct dir; [congruence|reflexivity]).
    rewrite S. cbn [negb]. unfold join2. cbn [default].
    rewrite append_nil_r, lookup_prop_set, String.eqb_refl.
    rewrite set_absent by exact Hnone. reflexivity.
  - unfold updatePath, startsWith. rewrite prefix_nil. reflexivity.
Qed.

Lemma updatePath_unset_or_empty_witness :
  updatePath linux [("HOME", "/root")] "/x/bin"
  = ([("HOME", "/root"); ("PATH", "/x/bin:")], Some "/x/bin:").
Proof.
  destruct (updatePath_unset_or_empty linux [("HOME", "/root")] "/x/bin")
    as (Hunset & _).
  exact (Hunset eq_refl ltac:(discriminate)).
Defined.

(** [getSysConfRoot()] gives no value exactly on a platform other than the
    three it knows, and never the empty string.  On darwin and linux it is a
    fixed path, whatever the environment.  On win32 it is
    [LANDO_INSTALL_PATH] when that is set and not empty, and the default
    under Program Files when it is unset or empty. *)
Theorem getSysConfRoot_cases (pf : platform) (env : list (string * string)) :
  (getSysConfRoot pf env = None <-> pf = otherPlatform) /\
  getSysConfRoot pf env <> Some "" /\
  (pf <> win32 -> getSysConfRoot pf env = getSysConfRoot pf []) /\
  getSysConfRoot darwin env = Some "/Applications/Lando.app/Contents/MacOS" /\
  getSysConfRoot linux env = Some "/usr/share/lando" /\
  (forall p, lookup_prop env "LANDO_INSTALL_PATH" = Some p -> p <> "" ->
     getSysConfRoot win32 env = Some p) /\
  (lookup_prop env "LANDO_INSTALL_PATH" = None \/
   lookup_prop env "LANDO_INSTALL_PATH" = Some "" ->
   getSysConfRoot win32 env = Some "C:\Program Files\Lando").
Proof.
  split; [|split; [|split; [|split; [|split; [|split]]]]]; try reflexivity.
  - destruct pf; simpl; split; congruence.
  - destruct pf; simpl; try discriminate.
    destruct (lookup_prop env "LANDO_INSTALL_PATH") as [[|c r]|]; discriminate.
  - destruct pf; simpl; congruence.
  - intros p Hp Hne. unfold getSysConfRoot. rewrite Hp.
    destruct p; [congruence|reflexivity].
  - intros [H|H]; unfold getSysConfRoot; rewrite H; reflexivity.
Qed.

Lemma getSysConfRoot_cases_witness :
  getSysConfRoot win32 [("LANDO_INSTALL_PATH", "D:\Lando")] = Some "D:\Lando" /\
  getSysConfRoot linux [("LANDO_INSTALL_PATH", "D:\Lando")] = getSysConfRoot linux [].
Proof.
  destruct (getSysConfRoot_cases win32 [("LANDO_INSTALL_PATH", "D:\Lando")])
    as (_ & _ & _ & _ & _ & Hwin & _).
  destruct (getSysConfRoot_cases linux [("LANDO_INSTALL_PATH", "D:\Lando")])
    as (_ & _ & Hother & _).
  split.
  - exact (Hwin "D:\Lando" eq_refl ltac:(discriminate)).
  - exact (Hother ltac:(discriminate)).
Defined.

Lemma prependGitBin_missing existsSync (env : list (string * string)) g :
  existsSync g = false -> prependGitBin existsSync env g = env.
Proof. intros H. unfold prependGitBin. rewrite H. reflexivity. Qed.

Lemma prependGitBin_first existsSync (env : list (string * string)) g :
  existsSync g = true ->
  startsWith (default "" (lookup_prop (prependGitBin existsSync env g) "Path")) g
  = true.
Proof.
  intros H. unfold prependGitBin. rewrite H. cbn [andb].
  destruct (startsWith (default "" (lookup_prop env "Path")) g) eqn:S;
    cbn [negb]; [exact S|].
  rewrite lookup_prop_set, String.eqb_refl. cbn [default].
  apply prefix_append.
Qed.

Lemma prependGitBin_frame existsSync (env : list (string * string)) g k :
  k <> "Path" -> lookup_prop (prependGitBin existsSync env g) k = lookup_prop env k.
Proof.
  intros Hk. unfold prependGitBin.
  destruct (_ && _); [|reflexivity].
  rewrite lookup_prop_set.
  destruct (String.eqb_spec k "Path"); [contradiction|reflexivity].
Qed.

Lemma fold_prependGitBin_missing existsSync (bins : list string)
      (env : list (string * string)) :
  List.Forall (fun g => existsSync g = false) bins ->
  fold_left (prependGitBin existsSync) bins env = env.
Proof.
  intros H. revert env. induction H as [|g r Hg _ IH]; intros env; [reflexivity|].
  cbn [fold_left]. rewrite prependGitBin_missing by exact Hg. apply IH.
Qed.

(** The search path block of [defaults()].  Off win32 the environment is
    as before.  On win32 the call throws when [LOCALAPPDATA], [ProgramFiles]
    or [ProgramW6432] is unset; when all three are set, the environment is
    as before if none of the three git directories is present, and
    otherwise [Path] begins with the last of them that is present; no
    variable other than [Path] changes. *)
Theorem defaultsEnv_last_present_first (pf : platform) (join : list string -> string)
        (existsSync : string -> bool) (env : list (string * string)) :
  (pf <> win32 -> defaultsEnv pf join existsSync env = Normal env) /\
  (pf = win32 ->
   lookup_prop env "LOCALAPPDATA" = None \/
   lookup_prop env "ProgramFiles" = None \/
   lookup_prop env "ProgramW6432" = None ->
   exists e, defaultsEnv pf join existsSync env = Throws e) /\
  (forall a b c,
     pf = win32 ->
     lookup_prop env "LOCALAPPDATA" = Some a ->
     lookup_prop env "ProgramFiles" = Some b ->
     lookup_prop env "ProgramW6432" = Some c ->
     exists env',
       defaultsEnv pf join existsSync env = Normal env' /\
       (List.Forall (fun g => existsSync g = false)
                    [join [a; "Programs"; "Git"; "usr"; "bin"];
                     join [b; "Git"; "usr"; "bin"];
                     join [c; "Git"; "usr"; "bin"]] -> env' = env) /\
       (forall before g after,
          [join [a; "Programs"; "Git"; "usr"; "bin"];
           join [b; "Git"; "usr"; "bin"];
           join [c; "Git"; "usr"; "bin"]] = (before ++ g :: after)%list ->
          existsSync g = true ->
          List.Forall (fun g' => existsSync g' = false) after ->
          startsWith (default "" (lookup_prop env' "Path")) g = true) /\
       (forall k, k <> "Path" -> lookup_prop env' k = lookup_prop env k)).
Proof.
  split; [|split].
  - destruct pf; simpl; congruence.
  - intros -> H. unfold defaultsEnv, pathJoin.
    destruct (lookup_prop env "LOCALAPPDATA"); cbn [bind]; [|eauto].
    destruct (lookup_prop env "ProgramFiles"); cbn [bind]; [|eauto].
    destruct (lookup_prop env "ProgramW6432"); cbn [bind]; [|eauto].
    destruct H as [H|[H|H]]; discriminate.
  - intros a b c -> Ha Hb Hc. unfold defaultsEnv, pathJoin.
    rewrite Ha, Hb, Hc. cbn [bind]. eexists. split; [reflexivity|].
    generalize [join [a; "Programs"; "Git"; "usr"; "bin"];
                join [b; "Git"; "usr"; "bin"];
                join [c; "Git"; "usr"; "bin"]].
    intros bins. split; [|split].
    + apply fold_prependGitBin_missing.
    + intros before g after -> Hg Hafter.
      rewrite fold_left_app. cbn [fold_left].
      rewrite fold_prependGitBin_missing by exact Hafter.
      apply prependGitBin_first. exact Hg.
    + intros k Hk. revert env Ha Hb Hc.
      induction bins as [|g r IH]; intros env _ _ _; [reflexivity|].
      cbn [fold_left].
      assert (G : forall e, lookup_prop (fold_left (prependGitBin existsSync) r e) k
                            = lookup_prop e k).
      { clear IH. induction r as [|g' r' IHr]; intros e; [reflexivity|].
        cbn [fold_left]. rewrite IHr. apply prependGitBin_frame. exact Hk. }
      rewrite G. apply prependGitBin_frame. exact Hk.
Qed.

Lemma defaultsEnv_last_present_first_witness :
  exists env',
    defaultsEnv win32 backslashJoin
      (fun g => String.eqb g "C:\Program Files\Git\usr\bin")
      [("LOCALAPPDATA", "C:\Users\me\AppData\Local");
       ("ProgramFiles", "C:\Program Files");
       ("ProgramW6432", "D:\Programs");
       ("Path", "C:\Windows")] = Normal env' /\
    startsWith (default "" (lookup_prop env' "Path"))
               "C:\Program Files\Git\usr\bin" = true.
Proof.
  destruct (defaultsEnv_last_present_first win32 backslashJoin
              (fun g => String.eqb g "C:\Program Files\Git\usr\bin")
              [("LOCALAPPDATA", "C:\Users\me\AppData\Local");
               ("ProgramFiles", "C:\Program Files");
               ("ProgramW6432", "D:\Programs");
               ("Path", "C:\Windows")]) as (_ & _ & Hset).
  destruct (Hset "C:\Users\me\AppData\Local" "C:\Program Files" "D:\Programs"
              eq_refl eq_refl eq_refl eq_refl) as (env' & Henv & _ & Hlast & _).
  exists env'. split; [exact Henv|].
  apply (Hlast [backslashJoin ["C:\Users\me\AppData\Local"; "Programs"; "Git"; "usr"; "bin"]]
               "C:\Program Files\Git\usr\bin"
               [backslashJoin ["D:\Programs"; "Git"; "usr"; "bin"]]
               eq_refl eq_refl).
  repeat constructor.
Defined.

(** ** [merge]: keys and sequences *)

Lemma has_assignMergeValue (o : fields) k v k' :
  has (assignMergeValue o k v) k' = has o k' || String.eqb k' k.
Proof.
  assert (S : forall w, has (set o k w) k' = has o k' || String.eqb k' k).
  { intros w. rewrite !has_lookup_prop, lookup_prop_set.
    destruct (String.eqb k' k); [rewrite orb_true_r|rewrite orb_false_r];
      reflexivity. }
  destruct v; simpl; try apply S.
  destruct (has o k) eqn:H; [|apply S]. clear S.
  destruct (String.eqb_spec k' k) as [E|]; [|rewrite orb_false_r; reflexivity].
  rewrite E, H. reflexivity.
Qed.

Lemma has_baseMerge (s o : fields) k :
  has (baseMerge o s) k = has o k || has s k.
Proof.
  revert o. induction s as [|[k0 sv] r IH]; intros o; simpl.
  - rewrite orb_false_r. reflexivity.
  - rewrite IH, has_assignMergeValue.
    destruct (String.eqb k k0); simpl; [|rewrite orb_false_r; reflexivity].
    rewrite !orb_true_r. reflexivity.
Qed.

(** [merge(base, overlay)] drops no key and adds none of its own: the
    merged object has a key exactly when [base] or [overlay] has it. *)
Theorem merge_keys (h : gmap nat fields) (old fresh : nat) (base overlay : fields) :
  h !! old = Some base ->
  h !! fresh = Some overlay ->
  old <> fresh ->
  exists result,
    (merge h old fresh).1 !! old = Some result /\
    forall k, has result k = has base k || has overlay k.
Proof.
  intros Hold Hfresh Hne. exists (baseMerge base overlay).
  unfold merge. rewrite Hold, Hfresh.
  destruct (decide (old = fresh)) as [|_]; [contradiction|]. simpl.
  split; [apply lookup_insert_eq|intros k; apply has_baseMerge].
Qed.

Lemma merge_keys_witness :
  exists result,
    (merge (twoObjects [("a", VNum 1); ("b", VNum 2)]
                       [("c", VNum 3); ("a", VNum 4)]) 0%nat 1%nat).1 !! 0%nat
    = Some result /\
    has result "c" = true.
Proof.
  assert (H0 : twoObjects [("a", VNum 1); ("b", VNum 2)]
                          [("c", VNum 3); ("a", VNum 4)] !! 0%nat
               = Some [("a", VNum 1); ("b", VNum 2)])
    by (vm_compute; reflexivity).
  assert (H1 : twoObjects [("a", VNum 1); ("b", VNum 2)]
                          [("c", VNum 3); ("a", VNum 4)] !! 1%nat
               = Some [("c", VNum 3); ("a", VNum 4)])
    by (vm_compute; reflexivity).
  destruct (merge_keys _ 0%nat 1%nat _ _ H0 H1 ltac:(lia)) as (result & Hr & Hk).
  exists result. split; [exact Hr|]. rewrite Hk. reflexivity.
Defined.

Lemma dedup_keeps x l : List.In x l -> List.In x (dedup l).
Proof.
  induction l as [|a r IH]; simpl; [tauto|].
  intros [E|H]; [left; exact E|].
  destruct (sameValueZero a x) eqn:S.
  - left. apply sameValueZero_eq. exact S.
  - right. apply List.filter_In. split; [apply IH; exact H|].
    rewrite S. reflexivity.
Qed.

Lemma dedup_app (xs ys : list value) :
  exists rest, dedup (xs ++ ys) = (dedup xs ++ rest)%list.
Proof.
  induction xs as [|a r (rest & IH)]; simpl.
  - exists (dedup ys). reflexivity.
  - rewrite IH, List.filter_app. eexists. reflexivity.
Qed.

Lemma concat_app (xs : list value) (f : value) :
  exists ys, concat xs f = (xs ++ ys)%list.
Proof. destruct f; simpl; eexists; reflexivity. Qed.

(** Where [base] holds a sequence, the merged sequence has exactly the
    values of [s.concat(f)], is no longer than it, and holds no value twice
    under SameValueZero. *)
Theorem customizer_union (xs : list value) (f : value) :
  exists zs,
    customizer (VArr xs) f = Some (VArr zs) /\
    (forall z, List.In z zs <-> List.In z (concat xs f)) /\
    (List.length zs <= List.length (concat xs f))%nat /\
    (forall before x rest y,
       zs = (before ++ x :: rest)%list -> List.In y rest ->
       sameValueZero x y = false).
Proof.
  exists (uniq (concat xs f)). split; [reflexivity|].
  rewrite uniq_dedup. split; [|split].
  - intros z. split; [apply dedup_In|apply dedup_keeps].
  - apply dedup_length.
  - intros before x rest y E Hy. exact (dedup_no_repeat _ _ _ _ _ E Hy).
Qed.

Lemma customizer_union_witness :
  exists zs,
    customizer (VArr [VStr "a"; VStr "b"]) (VArr [VStr "b"; VStr "c"])
    = Some (VArr zs) /\
    sameValueZero (VStr "a") (VStr "c") = false.
Proof.
  destruct (customizer_union [VStr "a"; VStr "b"] (VArr [VStr "b"; VStr "c"]))
    as (zs & Hz & _ & _ & Hno).
  exists zs. split; [exact Hz|].
  apply (Hno [] (VStr "a") [VStr "b"; VStr "c"] (VStr "c")).
  - injection Hz as <-. reflexivity.
  - right. left. reflexivity.
Defined.

(** Where [base] holds a sequence, its own deduplicated elements open the
    merged sequence, in their order: the overlay only adds behind them. *)
Theorem customizer_base_first (xs : list value) (f : value) :
  exists rest,
    customizer (VArr xs) f = Some (VArr (uniq xs ++ rest)).
Proof.
  destruct (concat_app xs f) as (ys & E).
  destruct (dedup_app xs ys) as (rest & D).
  exists rest. simpl. rewrite E, !uniq_dedup, D. reflexivity.
Qed.

(** ** [loadFiles]: single files, empty documents, read errors, precedence *)

Lemma baseMerge_into_empty (s : fields) :
  wf (VObj s) = true -> baseMerge [] s = s.
Proof.
  intros Hwf. rewrite wf_obj in Hwf. apply andb_prop in Hwf as [Hd Hall].
  rewrite baseMerge_fresh_keys; [reflexivity|exact Hd|reflexivity|].
  apply List.Forall_forall. intros [k v] Hin. simpl.
  apply mergeValue_copy; [|reflexivity].
  rewrite forallb_forall in Hall. exact (Hall (k, v) Hin).
Qed.

Lemma mergeWith_emptyDocument (conf : fields) (doc : value) :
  emptyDocument doc = true -> mergeWith conf doc = conf.
Proof.
  unfold mergeWith.
  destruct doc as [| |b|n|s|xs|fs]; simpl; try reflexivity.
  - destruct b; reflexivity.
  - destruct n; reflexivity.
  - destruct s; [reflexivity|discriminate].
  - destruct xs; [reflexivity|discriminate].
  - destruct fs; [reflexivity|discriminate].
Qed.

Section loadFiles_more.
Variable fs : string -> option (completion string).
Variable safeLoad : string -> completion value.

Lemma loadFiles_from_one conf p buf doc :
  fs p = Some (Normal buf) -> safeLoad buf = Normal doc ->
  forall after,
    loadFiles_from fs safeLoad conf (p :: after)
    = loadFiles_from fs safeLoad (mergeWith conf doc) after.
Proof.
  intros Hp Hb after. cbn [loadFiles_from]. unfold existsSync, readFileSync.
  rewrite Hp. cbn [bind]. rewrite Hb. reflexivity.
Qed.

(** When one file of the list exists and its document is a mapping,
    [loadFiles] returns that mapping as it is. *)
Theorem loadFiles_single (before after : list string) (p buf : string) (s : fields) :
  (forall q, List.In q before \/ List.In q after -> fs q = None) ->
  fs p = Some (Normal buf) ->
  safeLoad buf = Normal (VObj s) ->
  wf (VObj s) = true ->
  loadFiles fs safeLoad (before ++ p :: after) = Normal s.
Proof.
  intros Hmiss Hp Hb Hwf. unfold loadFiles.
  rewrite loadFiles_from_app, loadFiles_from_missing
    by (intros q Hq; apply Hmiss; left; exact Hq).
  cbn [bind]. rewrite (loadFiles_from_one _ _ _ _ Hp Hb).
  rewrite loadFiles_from_missing by (intros q Hq; apply Hmiss; right; exact Hq).
  unfold mergeWith. cbn [truthy keysIn].
  rewrite baseMerge_into_empty by exact Hwf. reflexivity.
Qed.

(** A file whose document is empty, a number or a boolean is passed over
    without error: the result is that of the list without it. *)
Theorem loadFiles_empty_document (before after : list string) (p buf : string) (doc : value) :
  fs p = Some (Normal buf) ->
  safeLoad buf = Normal doc ->
  emptyDocument doc = true ->
  loadFiles fs safeLoad (before ++ p :: after)
  = loadFiles fs safeLoad (before ++ after).
Proof.
  intros Hp Hb He. unfold loadFiles. rewrite !loadFiles_from_app.
  destruct (loadFiles_from fs safeLoad [] before) as [c|e]; [|reflexivity].
  cbn [bind]. rewrite (loadFiles_from_one _ _ _ _ Hp Hb).
  rewrite mergeWith_emptyDocument by exact He. reflexivity.
Qed.

(** A file that exists and cannot be read makes [loadFiles] throw the read
    error when the files before it loaded; the parser is not asked and the
    files after it make no difference. *)
Theorem loadFiles_read_error (before after : list string) (p : string) (e : exn) (conf : fields) :
  fs p = Some (Throws e) ->
  loadFiles fs safeLoad before = Normal conf ->
  loadFiles fs safeLoad (before ++ p :: after) = Throws e.
Proof.
  intros Hp Hbefore. unfold loadFiles in *.
  rewrite loadFiles_from_app, Hbefore. cbn [bind loadFiles_from].
  unfold existsSync, readFileSync. rewrite Hp. reflexivity.
Qed.

(** The last file has precedence: a scalar it sets wins over whatever the
    earlier files gave, unless they gave a sequence; a sequence it sets on
    top of a sequence gives the deduplicated concatenation, earlier
    elements first. *)
Theorem loadFiles_last_file (before : list string) (p buf : string)
        (conf s : fields) (k : string) :
  loadFiles fs safeLoad before = Normal conf ->
  fs p = Some (Normal buf) ->
  safeLoad buf = Normal (VObj s) ->
  distinct (map fst s) = true ->
  exists result,
    loadFiles fs safeLoad (before ++ [p]) = Normal result /\
    (forall v, lookup_prop s k = Some v -> isPrimitive v = true ->
       v <> VUndef -> isArray (get conf k) = false -> get result k = v) /\
    (forall xs ys, get conf k = VArr xs -> lookup_prop s k = Some (VArr ys) ->
       get result k = VArr (dedup (xs ++ ys))) /\
    (lookup_prop s k = None -> get result k = get conf k).
Proof.
  intros Hbefore Hp Hb Hd. exists (baseMerge conf s). unfold loadFiles in *.
  rewrite loadFiles_from_app, Hbefore. cbn [bind].
  rewrite (loadFiles_from_one _ _ _ _ Hp Hb). cbn [loadFiles_from].
  split; [reflexivity|]. split; [|split].
  - intros v Hv Hprim Hu Harr. rewrite (get_baseMerge_present _ _ _ _ Hd Hv).
    unfold isPrimitive in Hprim. apply negb_true_iff in Hprim.
    rewrite mergeValue_prim, customizer_not_array by assumption.
    destruct v; congruence.
  - intros xs ys Hc Hv. rewrite (get_baseMerge_present _ _ _ _ Hd Hv), Hc.
    rewrite mergeValue_arr. simpl. rewrite uniq_dedup. reflexivity.
  - apply get_baseMerge_absent.
Qed.
End loadFiles_more.

Lemma loadFiles_single_witness :
  loadFiles siteFs siteSafeLoad ["missing.yml"; "base.yml"; "absent.yml"]
  = Normal [("name", VStr "base"); ("plugins", VArr [VStr "a"])].
Proof.
  apply (loadFiles_single siteFs siteSafeLoad ["missing.yml"] ["absent.yml"]
           "base.yml" "base"); try reflexivity.
  intros q [[<-|[]]|[<-|[]]]; reflexivity.
Defined.

Lemma loadFiles_empty_document_witness :
  loadFiles siteFs siteSafeLoad (["base.yml"] ++ "empty.yml" :: ["site.yml"])
  = loadFiles siteFs siteSafeLoad (["base.yml"] ++ ["site.yml"]).
Proof.
  exact (loadFiles_empty_document siteFs siteSafeLoad ["base.yml"] ["site.yml"]
           "empty.yml" "" VUndef eq_refl eq_refl eq_refl).
Defined.

Lemma loadFiles_read_error_witness :
  loadFiles siteFs siteSafeLoad (["base.yml"] ++ "locked.yml" :: ["site.yml"])
  = Throws (IOError "EACCES").
Proof.
  exact (loadFiles_read_error siteFs siteSafeLoad ["base.yml"] ["site.yml"]
           "locked.yml" (IOError "EACCES")
           [("name", VStr "base"); ("plugins", VArr [VStr "a"])]
           eq_refl eq_refl).
Defined.

Lemma loadFiles_last_file_witness :
  exists result,
    loadFiles siteFs siteSafeLoad (["base.yml"] ++ ["site.yml"]) = Normal result /\
    get result "name" = VStr "site".
Proof.
  destruct (loadFiles_last_file siteFs siteSafeLoad ["base.yml"] "site.yml" "site"
              [("name", VStr "base"); ("plugins", VArr [VStr "a"])]
              [("name", VStr "site"); ("plugins", VArr [VStr "a"; VStr "b"])]
              "name" eq_refl eq_refl eq_refl eq_refl)
    as (result & Hres & Hscalar & _).
  exists result. split; [exact Hres|].
  apply (Hscalar (VStr "site")); try reflexivity. discriminate.
Defined.

(** ** [fetch] and [refresh] together *)

Lemma refresh_settles (releases : completion value) (currentVersion : string) (now : Z) :
  exists r, refresh releases currentVersion now = Normal r /\
            expires r = now + day /\
            startsWith (version r) "v" = false.
Proof.
  assert (F : exists r, onFailure currentVersion now (TypeError "") = Normal r /\
                        expires r = now + day /\
                        startsWith (version r) "v" = false).
  { eexists. split; [reflexivity|]. split; [reflexivity|].
    destruct (trimStart_v currentVersion) as (n & _ & Hp). exact Hp. }
  unfold refresh. destruct releases as [data|e]; cbn [bind catch]; [|exact F].
  unfold onReleases. destruct (find _) as [found|e]; cbn [bind catch]; [|exact F].
  eexists. split; [reflexivity|]. split; [reflexivity|]. cbn [version].
  destruct (trimStart_v (toString (lodash_get found "tag_name" (VStr currentVersion))))
    as (n & _ & Hp).
  exact Hp.
Qed.

(** A record that [refresh] returned at time [now], handed to [fetch] at
    time [later], needs no refresh up to and including [now + 86400000] and
    needs one from the next millisecond on, whatever the remote call did. *)
Theorem refresh_then_fetch (toNumber : string -> option Z)
        (releases : completion value) (currentVersion : string) (now : Z) :
  exists r,
    refresh releases currentVersion now = Normal r /\
    forall later,
      fetch toNumber (recordValue r) later = Normal (now + 86400000 <? later).
Proof.
  destruct (refresh_settles releases currentVersion now) as (r & Hr & He & _).
  exists r. split; [exact Hr|]. intros later.
  change (fetch toNumber (recordValue r) later)
    with (Normal (negb (expires r >=? later))).
  rewrite He, Z.geb_leb, <- Z.ltb_antisym. reflexivity.
Qed.

(** In every outcome the version of the record that [refresh] returns does
    not begin with the letter v. *)
Theorem refresh_version_without_v (releases : completion value)
        (currentVersion : string) (now : Z) :
  exists r, refresh releases currentVersion now = Normal r /\
            startsWith (version r) "v" = false.
Proof.
  destruct (refresh_settles releases currentVersion now) as (r & Hr & _ & Hv).
  exists r. split; assumption.
Qed.

(** Time only makes a record stale: if [fetch] asks for a refresh at one
    time, it asks for one at every later time. *)
Theorem fetch_stays_stale (toNumber : string -> option Z) (data : value) (now later : Z) :
  now <= later ->
  fetch toNumber data now = Normal true ->
  fetch toNumber data later = Normal true.
Proof.
  intros Hle. unfold fetch. destruct (truthy data); cbn [negb]; [|trivial].
  destruct (member data "expires") as [e|x]; cbn [bind]; [|trivial].
  unfold ge_number. destruct (ToNumber toNumber e) as [x|]; [|trivial].
  intros [= H]. apply negb_true_iff in H. f_equal. apply negb_true_iff.
  rewrite Z.geb_leb in *. apply Z.leb_gt. apply Z.leb_gt in H. lia.
Qed.

Lemma fetch_stays_stale_witness :
  fetch digitsToNumber (VObj [("expires", VNum 1000)]) 2000 = Normal true.
Proof.
  exact (fetch_stays_stale digitsToNumber (VObj [("expires", VNum 1000)])
           1001 2000 ltac:(lia) eq_refl).
Defined.

(** An answer of the remote call that carries no listing (it is no object,
    or has no [data]) gives the same record as a failed call. *)
Theorem refresh_without_listing (data : value) (currentVersion : string) (now : Z) :
  (forall fs, data = VObj fs -> lookup_prop fs "data" = None) ->
  refresh (Normal data) currentVersion now
  = Normal {| version := trimStart currentVersion "v";
              url := VStr "";
              expires := now + 86400000 |}.
Proof.
  intros H.
  assert (G : lodash_get data "data" (VArr []) = VArr []).
  { destruct data as [| |b|n|s|xs|fs]; try reflexivity.
    unfold lodash_get, get. rewrite (H fs eq_refl). reflexivity. }
  unfold refresh, onReleases. cbn [bind]. rewrite G. reflexivity.
Qed.

Lemma refresh_without_listing_witness :
  refresh (Normal (VObj [("message", VStr "rate limit exceeded")])) "v3.0.0" 1000
  = Normal {| version := "3.0.0"; url := VStr ""; expires := 1000 + 86400000 |}.
Proof.
  apply (refresh_without_listing (VObj [("message", VStr "rate limit exceeded")])
           "v3.0.0" 1000).
  intros fs [= <-]. reflexivity.
Defined.




(** ** More on [merge] and [loadEnvs] *)

Lemma mergeValue_onto_array xs sv :
  mergeValue (VArr xs) sv = VArr (uniq (concat xs sv)).
Proof.
  destruct sv; rewrite ?mergeValue_arr, ?mergeValue_obj,
                 ?mergeValue_prim by reflexivity; reflexivity.
Qed.

(** A key that holds a sequence in [base] holds a sequence after
    [merge(base, overlay)], whatever [overlay] holds there: an object or a
    scalar of the overlay becomes one more element. *)
Theorem merge_sequence_stays (h : gmap nat fields) (old fresh : nat)
        (base overlay : fields) (k : string) (xs : list value) :
  h !! old = Some base ->
  h !! fresh = Some overlay ->
  old <> fresh ->
  distinct (map fst overlay) = true ->
  get base k = VArr xs ->
  exists result zs,
    (merge h old fresh).1 !! old = Some result /\
    get result k = VArr zs /\
    (forall x, List.In x xs -> List.In x zs).
Proof.
  intros Hold Hfresh Hne Hd Hk. exists (baseMerge base overlay).
  unfold merge. rewrite Hold, Hfresh.
  destruct (decide (old = fresh)) as [|_]; [contradiction|]. simpl.
  destruct (lookup_prop overlay k) as [sv|] eqn:L.
  - exists (uniq (concat xs sv)). split; [apply lookup_insert_eq|].
    rewrite (get_baseMerge_present _ _ _ _ Hd L), Hk, mergeValue_onto_array.
    split; [reflexivity|].
    intros x Hx. rewrite uniq_dedup. apply dedup_keeps.
    destruct (concat_app xs sv) as (ys & ->). apply List.in_or_app. left. exact Hx.
  - exists xs. split; [apply lookup_insert_eq|].
    rewrite (get_baseMerge_absent _ _ _ L). split; [exact Hk|trivial].
Qed.

Lemma merge_sequence_stays_witness :
  exists result zs,
    (merge (twoObjects [("ports", VArr [VStr "80"])]
                       [("ports", VObj [("http", VStr "8080")])]) 0%nat 1%nat).1
      !! 0%nat = Some result /\
    get result "ports" = VArr zs /\
    (forall x, List.In x [VStr "80"] -> List.In x zs).
Proof.
  assert (H0 : twoObjects [("ports", VArr [VStr "80"])]
                          [("ports", VObj [("http", VStr "8080")])] !! 0%nat
               = Some [("ports", VArr [VStr "80"])])
    by (vm_compute; reflexivity).
  assert (H1 : twoObjects [("ports", VArr [VStr "80"])]
                          [("ports", VObj [("http", VStr "8080")])] !! 1%nat
               = Some [("ports", VObj [("http", VStr "8080")])])
    by (vm_compute; reflexivity).
  exact (merge_sequence_stays _ 0%nat 1%nat _ _ "ports" [VStr "80"]
           H0 H1 ltac:(lia) eq_refl eq_refl).
Defined.

Lemma loadEnvs_entries_witness :
  exists name,
    List.In (name, "yes") [("LANDO_ADMIN", "yes"); ("HOME", "/root")] /\
    includes name "LANDO_" = true /\
    "min" = lowercase (trimStart name "LANDO_").
Proof.
  apply (loadEnvs_entries lowercase [("LANDO_ADMIN", "yes"); ("HOME", "/root")]
           "LANDO_" "min" "yes").
  left. reflexivity.
Defined.

(** ** [merge] on the heap *)

Section heap.
Import Heap.

Section heap_frame.
Variable h0 : list cell.
Variable P : nat -> Prop.

Local Abbreviation okv := (Heap.okv h0 P).
Local Abbreviation goodCell := (Heap.goodCell h0 P).
Local Abbreviation goodAt := (Heap.goodAt h0 P).
Local Abbreviation target := (Heap.target h0 P).
Local Abbreviation Inv := (Heap.Inv h0 P).
Local Abbreviation Pres := (Heap.Pres h0 P).
Local Abbreviation okstack := (Heap.okstack h0 P).
Local Abbreviation keeps := (Heap.keeps h0 P).
Local Abbreviation inv_len := (Heap.inv_len h0 P).
Local Abbreviation inv_frame := (Heap.inv_frame h0 P).
Local Abbreviation inv_old := (Heap.inv_old h0 P).
Local Abbreviation inv_new := (Heap.inv_new h0 P).

Lemma Pres_refl h : Pres h h.
Proof. split; [lia|auto]. Qed.

Lemma Pres_trans h1 h2 h3 : Pres h1 h2 -> Pres h2 h3 -> Pres h1 h3.
Proof.
  intros [L1 G1] [L2 G2]. split; [lia|].
  intros l Hl Hg. apply G2; [lia|]. apply G1; assumption.
Qed.

Lemma okv_prim v : (forall l, v <> HRef l) -> okv v.
Proof. intros H r E. destruct (H r E). Qed.

Lemma okv_fresh h l : Inv h -> (length h <= l)%nat -> okv (HRef l).
Proof.
  intros I Hl r [= <-] Hr. pose proof (inv_len h I). lia.
Qed.

Lemma okv_hget fs k : List.Forall okv (map snd fs) -> okv (hget fs k).
Proof.
  unfold hget. induction fs as [|[k0 v0] r IH]; simpl; intros H.
  - apply okv_prim. discriminate.
  - apply Forall_cons_1 in H as [H0 Hr].
    destruct (String.eqb k k0); [exact H0|apply IH; exact Hr].
Qed.

Lemma okv_nth xs i : List.Forall okv xs -> okv (nth i xs HUndef).
Proof.
  intros H. revert i. induction H as [|x r Hx _ IH]; intros [|i]; simpl;
    try (apply okv_prim; discriminate); auto.
Qed.

Lemma goodAt_cellAt h l : goodAt h l -> goodCell (cellAt h l).
Proof.
  unfold goodAt, cellAt. intros H. destruct (h !! l) as [c|]; simpl.
  - apply H. reflexivity.
  - constructor.
Qed.

Lemma okv_readKey h o k : goodAt h o -> okv (readKey h o k).
Proof.
  intros H. apply goodAt_cellAt in H. unfold readKey.
  destruct (cellAt h o) as [fs|xs props]; unfold goodCell in H; simpl in H.
  - apply okv_hget. exact H.
  - apply Forall_app in H as [Hx Hp]. destruct k.
    + apply okv_hget. exact Hp.
    + apply okv_nth. exact Hx.
Qed.

Lemma Forall_okv_set fs k v :
  List.Forall okv (map snd fs) -> okv v -> List.Forall okv (map snd (set fs k v)).
Proof.
  intros H Hv. induction fs as [|[k0 v0] r IH]; simpl.
  - constructor; [exact Hv|constructor].
  - apply Forall_cons_1 in H as [H0 Hr].
    destruct (String.eqb k k0); simpl; constructor; auto.
Qed.

Lemma Forall_okv_setIndex xs i v :
  List.Forall okv xs -> okv v -> List.Forall okv (setIndex xs i v).
Proof.
  intros H Hv. unfold setIndex. destruct (i <? length xs)%nat.
  - apply Forall_insert; assumption.
  - apply Forall_app. split; [exact H|]. apply Forall_app. split.
    + apply Forall_forall. intros x Hx. apply list_elem_of_In in Hx.
      apply repeat_spec in Hx. subst. apply okv_prim. discriminate.
    + constructor; [exact Hv|constructor].
Qed.

(** Putting a good cell at a target location keeps the invariant. *)
Lemma Inv_insert h o c :
  Inv h -> target o -> goodCell c -> Inv (<[o := c]> h) /\ Pres h (<[o := c]> h).
Proof.
  intros I Ht Hc. split; [constructor|split].
  - rewrite length_insert. apply (inv_len h I).
  - intros l Hl Hn. rewrite list_lookup_insert_ne; [apply (inv_frame h I); assumption|].
    intros ->. apply Hn, Ht, Hl.
  - intros l Hl Hp c' Hc'. destruct (decide (o = l)) as [->|Hne].
    + apply list_lookup_insert_Some in Hc' as [(_ & <- & _)|(Hx & _)]; [exact Hc|congruence].
    + rewrite list_lookup_insert_ne in Hc' by exact Hne.
      exact (inv_old h I l Hl Hp c' Hc').
  - intros l fs Hl Hc'. destruct (decide (o = l)) as [->|Hne].
    + apply list_lookup_insert_Some in Hc' as [(_ & <- & _)|(Hx & _)]; [exact Hc|congruence].
    + rewrite list_lookup_insert_ne in Hc' by exact Hne.
      exact (inv_new h I l fs Hl Hc').
  - rewrite length_insert. lia.
  - intros l Hl Hg c' Hc'. destruct (decide (o = l)) as [->|Hne].
    + apply list_lookup_insert_Some in Hc' as [(_ & <- & _)|(Hx & _)]; [exact Hc|congruence].
    + rewrite list_lookup_insert_ne in Hc' by exact Hne. exact (Hg c' Hc').
Qed.

Lemma Inv_writeKey h o k v :
  Inv h -> target o -> goodAt h o -> okv v ->
  Inv (writeKey h o k v) /\ Pres h (writeKey h o k v).
Proof.
  intros I Ht Hg Hv. apply goodAt_cellAt in Hg. unfold writeKey.
  destruct (cellAt h o) as [fs|xs props]; unfold goodCell in Hg; simpl in Hg.
  - apply Inv_insert; try assumption. apply Forall_okv_set; assumption.
  - apply Forall_app in Hg as [Hx Hp].
    destruct k; apply Inv_insert; try assumption; unfold goodCell; simpl;
      apply Forall_app; split; try assumption.
    + apply Forall_okv_set; assumption.
    + apply Forall_okv_setIndex; assumption.
Qed.

Lemma Inv_assignMergeValue h o k v :
  Inv h -> target o -> goodAt h o -> okv v ->
  Inv (assignMergeValue h o k v) /\ Pres h (assignMergeValue h o k v).
Proof.
  intros I Ht Hg Hv. unfold assignMergeValue.
  destruct v; try (apply Inv_writeKey; assumption).
  destruct (hasKey h o k); [split; [exact I|apply Pres_refl]|].
  apply Inv_writeKey; assumption.
Qed.

(** Allocating a cell keeps the invariant, provided a new object is good. *)
Lemma Inv_alloc h c :
  Inv h -> (forall fs, c = CObj fs -> goodCell c) ->
  Inv (h ++ [c]) /\ Pres h (h ++ [c]).
Proof.
  intros I Hc. pose proof (inv_len h I) as Hlen. split; [constructor|split].
  - rewrite length_app. simpl. lia.
  - intros l Hl Hn. rewrite lookup_app_l by lia. apply (inv_frame h I); assumption.
  - intros l Hl Hp c' Hc'. rewrite lookup_app_l in Hc' by lia.
    exact (inv_old h I l Hl Hp c' Hc').
  - intros l fs Hl Hc'. destruct (decide (l < length h)%nat) as [Hlt|Hge].
    + rewrite lookup_app_l in Hc' by exact Hlt. exact (inv_new h I l fs Hl Hc').
    + rewrite lookup_app_r in Hc' by lia.
      destruct (l - length h)%nat as [|m] eqn:E; simpl in Hc'; [|discriminate].
      injection Hc' as Hc'. rewrite <- Hc'. apply (Hc fs). exact Hc'.
  - rewrite length_app. simpl. lia.
  - intros l Hl Hg c' Hc'. rewrite lookup_app_l in Hc' by exact Hl. exact (Hg c' Hc').
Qed.

Lemma goodAt_alloc h c : goodCell c -> goodAt (h ++ [c]) (length h).
Proof.
  intros Hc c' Hc'. rewrite lookup_app_r in Hc' by lia.
  rewrite Nat.sub_diag in Hc'. simpl in Hc'. congruence.
Qed.

Lemma Inv_customizer h s f h1 nv :
  Inv h -> customizer h s f = Some (h1, nv) ->
  Inv h1 /\ Pres h h1 /\ okv nv.
Proof.
  intros I H. unfold customizer in H.
  destruct s as [| | | | |l]; try discriminate.
  destruct (h !! l) as [[fs|xs props]|]; try discriminate.
  injection H as <- <-.
  destruct (Inv_alloc h (CArr (uniq (concat h xs f)) []) I) as [I1 P1];
    [discriminate|].
  split; [exact I1|]. split; [exact P1|]. apply (okv_fresh h); [exact I|lia].
Qed.

(** An object that is a value of a good target cell is a good target. *)
Lemma target_object h v l :
  Inv h -> okv v -> isObjectCell h v = Some l ->
  v = HRef l /\ target l /\ goodAt h l /\ (l < length h)%nat.
Proof.
  intros I Hv H. unfold isObjectCell in H.
  destruct v as [| | | | |l']; try discriminate.
  destruct (h !! l') as [[fs|xs props]|] eqn:E; try discriminate.
  injection H as <-. split; [reflexivity|]. split; [exact (Hv l' eq_refl)|].
  split; [|apply lookup_lt_Some in E; exact E].
  intros c Hc. destruct (decide (l' < length h0)%nat) as [Hlt|Hge].
  - exact (inv_old h I l' Hlt (Hv l' eq_refl Hlt) c Hc).
  - rewrite E in Hc. injection Hc as <-. apply (inv_new h I l' fs); [lia|exact E].
Qed.

Lemma okv_arrayLike h v xs :
  Inv h -> okv v -> arrayLike h v = Some xs -> List.Forall okv xs.
Proof.
  intros I Hv H. unfold arrayLike in H.
  destruct v as [| | | | |l]; try discriminate.
  destruct (h !! l) as [[fs|ys props]|] eqn:E; try discriminate.
  assert (G : goodCell (CObj fs)).
  { destruct (decide (l < length h0)%nat) as [Hlt|Hge].
    - exact (inv_old h I l Hlt (Hv l eq_refl Hlt) _ E).
    - apply (inv_new h I l fs); [lia|exact E]. }
  destruct (hget fs "length"); try discriminate.
  destruct (_ && _); [|discriminate]. injection H as <-.
  apply Forall_forall. intros x Hx. apply list_elem_of_In in Hx.
  apply in_map_iff in Hx as (i & <- & _). apply okv_hget. exact G.
Qed.

(** The destination that [baseMergeDeep] picks is a good target. *)
Lemma dest_ready h objValue src h1 dest :
  Inv h -> okv objValue ->
  match cellAt h src with
  | CObj _ =>
      match isObjectCell h objValue with
      | Some l => (h, l)
      | None => ((h ++ [CObj []])%list, length h)
      end
  | CArr _ _ =>
      ((h ++ [CArr (default [] (arrayLike h objValue)) []])%list, length h)
  end = (h1, dest) ->
  Inv h1 /\ Pres h h1 /\ target dest /\ goodAt h1 dest /\
  (dest < length h1)%nat /\ okv (HRef dest).
Proof.
  intros I Hov E.
  assert (A : forall c, (forall fs, c = CObj fs -> goodCell c) -> goodCell c ->
               Inv (h ++ [c]) /\ Pres h (h ++ [c]) /\ target (length h) /\
               goodAt (h ++ [c]) (length h) /\
               (length h < length (h ++ [c]))%nat /\ okv (HRef (length h))).
  { intros c Hc1 Hc2. destruct (Inv_alloc h c I Hc1) as [I1 P1].
    pose proof (inv_len h I) as Hn.
    split; [exact I1|]. split; [exact P1|]. split.
    { intros Hlt. lia. }
    split; [apply goodAt_alloc; exact Hc2|]. split.
    { rewrite length_app. simpl. lia. }
    apply (okv_fresh h); [exact I|lia]. }
  destruct (cellAt h src) as [sfs|sxs sprops].
  - destruct (isObjectCell h objValue) as [l|] eqn:O.
    + injection E as <- <-.
      destruct (target_object h objValue l I Hov O) as (-> & Ht & Hgl & Hll).
      split; [exact I|]. split; [apply Pres_refl|]. split; [exact Ht|].
      split; [exact Hgl|]. split; [exact Hll|exact Hov].
    + injection E as <- <-. apply A; intros; constructor.
  - injection E as <- <-.
    assert (G : goodCell (CArr (default [] (arrayLike h objValue)) [])).
    { unfold goodCell. simpl. rewrite app_nil_r.
      destruct (arrayLike h objValue) as [xs|] eqn:Al; simpl; [|constructor].
      exact (okv_arrayLike h objValue xs I Hov Al). }
    apply A; [discriminate|exact G].
Qed.

Lemma okv_stackGet stack l v : okstack stack -> stackGet stack l = Some v -> okv v.
Proof.
  induction 1 as [|[l' v'] r Hv _ IH]; simpl; [discriminate|].
  destruct (Nat.eqb l l'); [intros [= <-]; exact Hv|exact IH].
Qed.

Section loop.
Variable rec : list cell -> list (nat * hval) -> nat -> nat -> option (list cell).
Hypothesis Hrec : keeps rec.
Variable stack : list (nat * hval).
Variable object source : nat.
Hypothesis Hstack : okstack stack.
Hypothesis Htarget : target object.

Lemma assign_after h h1 k v :
  Inv h1 -> Pres h h1 -> goodAt h object -> (object < length h)%nat -> okv v ->
  Inv (assignMergeValue h1 object k v) /\ Pres h (assignMergeValue h1 object k v).
Proof.
  intros I1 P1 Hg Hl Hv.
  destruct (Inv_assignMergeValue h1 object k v I1 Htarget) as [I2 P2];
    [apply P1; assumption|exact Hv|].
  split; [exact I2|exact (Pres_trans _ _ _ P1 P2)].
Qed.

Lemma mergeCommon_keeps h k objValue src h' :
  Inv h -> goodAt h object -> (object < length h)%nat -> okv objValue ->
  mergeCommon rec stack object h k objValue src = Some h' ->
  Inv h' /\ Pres h h'.
Proof.
  intros I Hg Hl Hov H. unfold mergeCommon in H.
  destruct (match cellAt h src with
            | CObj _ => _
            | CArr _ _ => _
            end) as [h1 dest] eqn:E.
  destruct (dest_ready h objValue src h1 dest I Hov E)
    as (I1 & P1 & Ht & Hgd & Hld & Hvd).
  destruct (rec h1 ((src, HRef dest) :: stack) dest src) as [h2|] eqn:R;
    [|discriminate].
  injection H as <-.
  destruct (Hrec h1 ((src, HRef dest) :: stack) dest src h2 I1) as [I2 P2];
    try assumption.
  { constructor; [exact Hvd|exact Hstack]. }
  apply (assign_after h h2 k (HRef dest)); try assumption.
  exact (Pres_trans _ _ _ P1 P2).
Qed.

Lemma mergeKey_keeps h k h' :
  Inv h -> goodAt h object -> (object < length h)%nat ->
  mergeKey rec stack object source h k = Some h' ->
  Inv h' /\ Pres h h'.
Proof.
  intros I Hg Hl H. unfold mergeKey in H.
  pose proof (okv_readKey h object k Hg) as Hov.
  assert (C : forall sv,
             match customizer h (readKey h object k) sv with
             | Some (h1, newValue) => Some (assignMergeValue h1 object k newValue)
             | None => Some (assignMergeValue h object k sv)
             end = Some h' -> okv sv -> Inv h' /\ Pres h h').
  { intros sv H' Hsv.
    destruct (customizer h (readKey h object k) sv) as [[h1 nv]|] eqn:Cz.
    - injection H' as <-.
      destruct (Inv_customizer h _ _ h1 nv I Cz) as (I1 & P1 & Hnv).
      apply assign_after; assumption.
    - injection H' as <-. apply Inv_assignMergeValue; assumption. }
  cbv zeta in H.
  destruct (readKey h source k) as [| |b|n|s|src] eqn:Esv;
    try (apply (C _ H); apply okv_prim; intros ?; discriminate).
  destruct (stackGet stack src) as [stacked|] eqn:S.
  - injection H as <-. apply Inv_assignMergeValue; try assumption.
    exact (okv_stackGet stack src stacked Hstack S).
  - destruct (customizer h (readKey h object k) (HRef src)) as [[h1 nv]|] eqn:Cz.
    + injection H as <-.
      destruct (Inv_customizer h _ _ h1 nv I Cz) as (I1 & P1 & Hnv).
      apply assign_after; assumption.
    + exact (mergeCommon_keeps h k _ src h' I Hg Hl Hov H).
Qed.

Lemma each_keeps ks : forall h h',
  Inv h -> goodAt h object -> (object < length h)%nat ->
  each rec stack object source ks h = Some h' ->
  Inv h' /\ Pres h h'.
Proof.
  induction ks as [|k rest IH]; intros h h' I Hg Hl H; simpl in H.
  - injection H as <-. split; [exact I|apply Pres_refl].
  - destruct (mergeKey rec stack object source h k) as [h1|] eqn:M; [|discriminate].
    destruct (mergeKey_keeps h k h1 I Hg Hl M) as [I1 P1].
    destruct (IH h1 h' I1) as [I2 P2]; try assumption.
    + apply P1; assumption.
    + destruct P1. lia.
    + split; [exact I2|exact (Pres_trans _ _ _ P1 P2)].
Qed.
End loop.

Lemma baseMerge_keeps fuel : keeps (baseMerge fuel).
Proof.
  induction fuel as [|fuel IH]; intros h stack object source h' I Hs Ht Hg Hl H;
    simpl in H; [discriminate|].
  destruct (Nat.eqb object source).
  - injection H as <-. split; [exact I|apply Pres_refl].
  - exact (each_keeps (baseMerge fuel) IH stack object source Hs Ht _ h h' I Hg Hl H).
Qed.

End heap_frame.

Lemma readKey_vals h o k r c :
  h !! o = Some c -> readKey h o k = HRef r -> List.In (HRef r) (vals c).
Proof.
  intros Hc. unfold readKey, cellAt. rewrite Hc. simpl.
  assert (G : forall (fs : list (string * hval)) name,
             hget fs name = HRef r -> List.In (HRef r) (map snd fs)).
  { intros fs name. unfold hget. induction fs as [|[k0 v0] rest IH]; simpl;
      [discriminate|].
    destruct (String.eqb name k0); [simpl; intros H; left; exact H|].
    intros H. right. apply IH. exact H. }
  destruct c as [fs|xs props]; simpl.
  - apply G.
  - destruct k as [s|i]; intros H; apply List.in_or_app.
    + right. exact (G _ _ H).
    + left. rewrite <- H. apply List.nth_In.
      destruct (decide (i < length xs)%nat) as [Hlt|Hge]; [exact Hlt|].
      rewrite List.nth_overflow in H by lia. discriminate.
Qed.

Section heap_returns.
Variable h0 : list cell.
Variable old : nat.

Let P := reach h0 old.

Lemma apart_cell source d :
  apart h0 old (HRef source) d ->
  exists c d', d = S d' /\ ~ P source /\ h0 !! source = Some c /\
               List.Forall (fun v => apart h0 old v d') (vals c).
Proof.
  inversion 1 as [v d0 Hn|l c d' Hn Hc Hall]; subst.
  - destruct (Hn source eq_refl).
  - exists c, d'. auto.
Qed.

Section loop.
Variable rec : list cell -> list (nat * hval) -> nat -> nat -> option (list cell).
Variable d : nat.
Hypothesis Hkeeps : keeps h0 P rec.
Hypothesis Hreturns : Heap.returns h0 old d rec.
Variable stack : list (nat * hval).
Variable object source : nat.
Hypothesis Hstack : okstack h0 P stack.
Hypothesis Htarget : target h0 P object.
Variable c : cell.
Hypothesis Hnot : ~ P source.
Hypothesis Hcell : h0 !! source = Some c.
Hypothesis Hall : List.Forall (fun v => apart h0 old v d) (vals c).

Lemma mergeKey_returns h k :
  Inv h0 P h -> goodAt h0 P h object -> (object < length h)%nat ->
  exists h', mergeKey rec stack object source h k = Some h'.
Proof.
  intros I Hg Hl. unfold mergeKey. cbv zeta.
  assert (Hsrc : h !! source = Some c).
  { rewrite (inv_frame h0 P h I); [exact Hcell| |exact Hnot].
    apply lookup_lt_Some in Hcell. exact Hcell. }
  destruct (readKey h source k) as [| |b|n|s|src] eqn:Esv;
    try solve [destruct (customizer h (readKey h object k) _) as [[hc nv]|]; eauto].
  destruct (stackGet stack src); [eauto|].
  destruct (customizer h (readKey h object k) (HRef src)) as [[hc nv]|];
    [eauto|].
  pose proof (readKey_vals h source k src c Hsrc Esv) as Hin.
  rewrite List.Forall_forall in Hall. specialize (Hall _ Hin).
  pose proof (okv_readKey h0 P h object k Hg) as Hov.
  unfold mergeCommon.
  destruct (match cellAt h src with
            | CObj _ => _
            | CArr _ _ => _
            end) as [h1 dest] eqn:E.
  destruct (dest_ready h0 P h (readKey h object k) src h1 dest I Hov E)
    as (I1 & P1 & Ht & Hgd & Hld & Hvd).
  destruct (Hreturns h1 ((src, HRef dest) :: stack) dest src Hall I1) as (h2 & ->);
    try assumption.
  { constructor; [exact Hvd|exact Hstack]. }
  eauto.
Qed.

Lemma each_returns ks : forall h,
  Inv h0 P h -> goodAt h0 P h object -> (object < length h)%nat ->
  exists h', each rec stack object source ks h = Some h'.
Proof.
  induction ks as [|k rest IH]; intros h I Hg Hl; simpl; [eauto|].
  destruct (mergeKey_returns h k I Hg Hl) as (h1 & M). rewrite M.
  destruct (mergeKey_keeps h0 P rec Hkeeps stack object source Hstack Htarget
              h k h1 I Hg Hl M) as [I1 P1].
  apply IH; [exact I1|apply P1; assumption|destruct P1; lia].
Qed.
End loop.

Lemma baseMerge_returns fuel :
  forall d, (d <= fuel)%nat -> Heap.returns h0 old d (baseMerge fuel).
Proof.
  induction fuel as [|fuel IH]; intros d Hd h stack object source Ha I Hs Ht Hg Hl;
    destruct (apart_cell source d Ha) as (c & d' & -> & Hnot & Hcell & Hall);
    [lia|].
  simpl. destruct (Nat.eqb object source); [eauto|].
  apply (each_returns (baseMerge fuel) d' (baseMerge_keeps h0 P fuel)
           (IH d' ltac:(lia)) stack object source Hs Ht c Hnot Hcell Hall);
    assumption.
Qed.

End heap_returns.

Lemma Inv_start (h : list cell) (old : nat) : Heap.Inv h (reach h old) h.
Proof.
  constructor.
  - lia.
  - reflexivity.
  - intros l _ Hp c Hc. apply Forall_forall. intros v Hv.
    apply list_elem_of_In in Hv. intros r -> _.
    exact (reach_step h old l c r Hp Hc Hv).
  - intros l fs Hl Hc. apply lookup_lt_Some in Hc. lia.
Qed.

(** C6 (as amended). [merge(base, overlay)] returns [base] itself, not a
    new structure, and the only objects it can change are [base] and the
    objects that can be reached from [base]: every object that cannot be
    reached from [base] before the call is afterwards as it was.  When
    [overlay] is a tree of objects none of which can be reached from
    [base], the call returns, and [overlay] and every object nested in it
    are as they were before the call. *)
Theorem merge_frame (fuel : nat) (h : list Heap.cell) (old fresh : nat)
        (fs : list (string * Heap.hval)) :
  h !! old = Some (Heap.CObj fs) ->
  (forall h' r,
     Heap.merge fuel h old fresh = Some (h', r) ->
     r = old /\ (length h <= length h')%nat /\
     forall l, (l < length h)%nat -> ~ Heap.reach h old l -> h' !! l = h !! l) /\
  (forall d,
     Heap.apart h old (Heap.HRef fresh) d -> (d <= fuel)%nat ->
     exists h',
       Heap.merge fuel h old fresh = Some (h', old) /\
       h' !! fresh = h !! fresh /\
       forall l, (l < length h)%nat -> ~ Heap.reach h old l -> h' !! l = h !! l).
Proof.
  intros Hcell. pose proof (lookup_lt_Some _ _ _ Hcell) as Hold.
  assert (Hg : Heap.goodAt h (reach h old) h old).
  { apply (Heap.inv_old h (reach h old) h (Inv_start h old) old Hold).
    apply reach_here. }
  assert (Ht : Heap.target h (reach h old) old) by (intros _; apply reach_here).
  assert (F : forall h', baseMerge fuel h [] old fresh = Some h' ->
              (length h <= length h')%nat /\
              forall l, (l < length h)%nat -> ~ reach h old l -> h' !! l = h !! l).
  { intros h' H.
    destruct (baseMerge_keeps h (reach h old) fuel h [] old fresh h'
                (Inv_start h old) (List.Forall_nil _) Ht Hg Hold H) as [I' _].
    split; [exact (Heap.inv_len _ _ _ I')|exact (Heap.inv_frame _ _ _ I')]. }
  split.
  - intros h' r H. unfold Heap.merge in H. rewrite Hcell in H.
    destruct (baseMerge fuel h [] old fresh) as [h1|] eqn:E; [|discriminate].
    injection H as <- <-. split; [reflexivity|]. exact (F h1 eq_refl).
  - intros d Ha Hd.
    destruct (baseMerge_returns h old fuel d Hd h [] old fresh Ha
                (Inv_start h old) (List.Forall_nil _) Ht Hg Hold) as (h' & E).
    exists h'. unfold Heap.merge. rewrite Hcell, E. split; [reflexivity|].
    destruct (F h' E) as [_ Hf]. split; [|exact Hf].
    destruct (apart_cell h old fresh d Ha) as (c & d' & _ & Hn & Hc & _).
    apply Hf; [apply lookup_lt_Some in Hc; exact Hc|exact Hn].
Qed.

Lemma nestedHeap_reach (l : nat) :
  Heap.reach nestedHeap 0 l -> l = 0%nat \/ l = 2%nat.
Proof.
  induction 1 as [|l c r _ IH Hc Hin]; [left; reflexivity|].
  destruct IH as [-> | ->]; vm_compute in Hc; injection Hc as <-;
    simpl in Hin; destruct Hin as [E|[]]; try discriminate E;
    injection E as <-; auto.
Qed.

Lemma merge_frame_witness :
  exists h',
    Heap.merge 2 nestedHeap 0 1 = Some (h', 0%nat) /\
    h' !! 1%nat = nestedHeap !! 1%nat.
Proof.
  destruct (merge_frame 2 nestedHeap 0 1 [("n", Heap.HRef 2)] eq_refl)
    as (_ & Hret).
  destruct (Hret 2%nat) as (h' & Hm & Hfresh & _); [|lia|eauto].
  assert (N : forall l, l = 1%nat \/ l = 3%nat -> ~ Heap.reach nestedHeap 0 l).
  { intros l Hl Hr. apply nestedHeap_reach in Hr. lia. }
  apply (Heap.apart_ref nestedHeap 0 1 (Heap.CObj [("n", Heap.HRef 3)]) 1);
    [apply N; auto|reflexivity|].
  apply List.Forall_cons; [|apply List.Forall_nil].
  apply (Heap.apart_ref nestedHeap 0 3 (Heap.CObj [("x", Heap.HNum 2)]) 0);
    [apply N; auto|reflexivity|].
  apply List.Forall_cons; [|apply List.Forall_nil].
  apply Heap.apart_prim. intros l. discriminate.
Defined.

(** C6, as stated, fails: after the call [base] holds the merged value,
    not the value it had before; and so does an object nested in [base]. *)
Lemma merge_changes_base :
  Heap.merge 1 [Heap.CObj [("a", Heap.HNum 1)]; Heap.CObj [("a", Heap.HNum 2)]] 0 1
  = Some ([Heap.CObj [("a", Heap.HNum 2)]; Heap.CObj [("a", Heap.HNum 2)]], 0%nat) /\
  Heap.CObj [("a", Heap.HNum 2)] <> Heap.CObj [("a", Heap.HNum 1)] /\
  option_map (fun r => fst r !! 2%nat) (Heap.merge 2 nestedHeap 0 1)
  = Some (Some (Heap.CObj [("x", Heap.HNum 2)])) /\
  nestedHeap !! 2%nat = Some (Heap.CObj [("x", Heap.HNum 1)]).
Proof.
  split; [reflexivity|]. split; [discriminate|]. split; reflexivity.
Qed.

End heap.

(** On arguments that share nothing the heap and the values agree: read
    back as a value, the merged [base] is what [baseMerge] computes. *)
Lemma heap_merge_agrees :
  option_map (fun r => Heap.decode 3 (fst r) (Heap.HRef (snd r)))
             (Heap.merge 3 siteHeap 0 1)
  = Some (VObj (baseMerge
                  [("name", VStr "a"); ("tags", VArr [VStr "x"; VStr "y"]);
                   ("nest", VObj [("p", VNum 1)]);
                   ("al", VObj [("length", VNum 2)])]
                  [("name", VStr "b"); ("tags", VArr [VStr "y"; VStr "z"]);
                   ("nest", VObj [("p", VUndef); ("q", VNum 2)]);
                   ("al", VArr [VStr "x"]);
                   ("new", VObj [("r", VArr [VNum 1; VNum 1])])])).
Proof. vm_compute. reflexivity. Qed.
